(** * update_debug.py: the DebugLogger migration script of PeerPigeon

    A shallow embedding of [src/update_debug.py], the proofs of the
    properties its specification states, and further properties of the
    script: of its two patterns, of the transform, and of the batch.

    Python strings are sequences of Unicode code points; a code point is a
    number [N], a string a [list N].  The three regular expressions of the
    script are embedded as the matching functions the [re] module computes
    for them (leftmost match, greedy quantifiers with backtracking); the file
    system is a finite map from paths to contents, and what [update_file]
    and [main] do to the outside world is recorded in a trace of events. *)

From Stdlib Require Import NArith Ascii String Lia.
From stdpp Require Import base option list gmap.

Open Scope list_scope.

(** ** Strings *)

Abbreviation str := (list N).

(** A literal of the script, as code points. *)
Definition lit (s : string) : str := map N_of_ascii (list_ascii_of_string s).

Definition NL : N := 10%N.
Definition semicolon : N := 59%N.
Definition rparen : N := 41%N.
Definition lbrace : N := 123%N.
Definition rbrace : N := 125%N.

(** [s.startswith(p)] *)
Fixpoint startswith (p s : str) : bool :=
  match p, s with
  | [], _ => true
  | _ :: _, [] => false
  | a :: p', b :: s' => (a =? b)%N && startswith p' s'
  end.

(** [p in s] *)
Fixpoint contains (p s : str) : bool :=
  startswith p s ||
  match s with
  | [] => false
  | _ :: t => contains p t
  end.

(** [s.find(p)]: the index of the first occurrence. *)
Fixpoint find (p s : str) : option nat :=
  if startswith p s then Some O
  else match s with
       | [] => None
       | _ :: t => S <$> find p t
       end.

(** [s.rfind(p)]: the index of the last occurrence. *)
Fixpoint rfind (p s : str) : option nat :=
  match s with
  | [] => if startswith p [] then Some O else None
  | _ :: t =>
      match rfind p t with
      | Some k => Some (S k)
      | None => if startswith p s then Some O else None
      end
  end.

(** [s.replace(old, new, 1)]: only the first occurrence is replaced. *)
Definition replace_first (old new s : str) : str :=
  match find old s with
  | Some i => take i s ++ new ++ drop (i + length old) s
  | None => s
  end.

(** The number of positions of [s] at which [p] occurs. *)
Fixpoint count_sub (p s : str) : nat :=
  (if startswith p s then 1 else 0) +
  match s with
  | [] => 0
  | _ :: t => count_sub p t
  end.

(** The longest prefix whose characters all satisfy [f], and the rest: what a
    greedy character-class repetition consumes. *)
Fixpoint span (f : N → bool) (s : str) : str * str :=
  match s with
  | [] => ([], [])
  | c :: t =>
      if f c then let '(a, b) := span f t in (c :: a, b)
      else ([], s)
  end.

(** [re.sub(pattern, repl, s)] for a pattern that is an escaped, non-empty
    literal [old] (it matches where [s] starts with [old]) and a replacement
    without group references: the scan goes left to right, replaces an
    occurrence where it finds one and resumes behind it.  [skip] counts the
    characters of the occurrence just replaced that are still to be passed
    over. *)
Fixpoint re_sub_aux (old new : str) (skip : nat) (s : str) : str :=
  match s with
  | [] => []
  | c :: t =>
      match skip with
      | S k => re_sub_aux old new k t
      | O =>
          if startswith old s
          then new ++ re_sub_aux old new (length old - 1) t
          else c :: re_sub_aux old new O t
      end
  end.

Definition re_sub (old new s : str) : str := re_sub_aux old new O s.

(** ** The regular expressions *)

(** [\s] of a [str] pattern: the code points for which [str.isspace] holds. *)
Definition is_space (c : N) : bool :=
  (((9 <=? c) && (c <=? 13)) || ((28 <=? c) && (c <=? 32)) ||
   (c =? 133) || (c =? 160) || (c =? 5760) ||
   ((8192 <=? c) && (c <=? 8202)) ||
   (c =? 8232) || (c =? 8233) || (c =? 8239) || (c =? 8287) ||
   (c =? 12288))%N.

Definition not_char (x c : N) : bool := negb (c =? x)%N.

(** The regular expressions of the script use literal characters, the
    classes [[^c]] and [\s], the greedy repetitions [*] and [+] of a class,
    and concatenation.  Both patterns are one group, so group 1 is the whole
    match. *)
Inductive cls :=
| Only (c : N)
| Except (c : N)
| WhiteSpace.

Definition in_cls (k : cls) (x : N) : bool :=
  match k with
  | Only c => (x =? c)%N
  | Except c => not_char c x
  | WhiteSpace => is_space x
  end.

Inductive regex :=
| Eps
| One (k : cls)
| Star (k : cls)
| Plus (k : cls)
| Cat (r1 r2 : regex).

(** A greedy repetition, followed by the rest of the pattern [cont]: take
    one more character if possible, and give it back when the rest of the
    pattern then fails. *)
Fixpoint star (k : cls) (cont : str → option str) (s : str) : option str :=
  match s with
  | [] => cont []
  | x :: t =>
      if in_cls k x then
        match star k cont t with
        | Some rest => Some rest
        | None => cont s
        end
      else cont s
  end.

(** The backtracking matcher of [re], at the head of [s]: what is left of
    [s] behind the match, if there is one. *)
Fixpoint run (r : regex) (cont : str → option str) (s : str) : option str :=
  match r with
  | Eps => cont s
  | One k =>
      match s with
      | [] => None
      | x :: t => if in_cls k x then cont t else None
      end
  | Star k => star k cont s
  | Plus k =>
      match s with
      | [] => None
      | x :: t => if in_cls k x then star k cont t else None
      end
  | Cat r1 r2 => run r1 (run r2 cont) s
  end.

(** A literal text as a pattern. *)
Definition word (l : str) : regex :=
  fold_right (λ c r, Cat (One (Only c)) r) Eps l.

(** [r'(import[^;]+;)'] *)
Definition import_pattern : regex :=
  Cat (word (lit "import"))
    (Cat (Plus (Except semicolon)) (One (Only semicolon))).

(** [r'(constructor\([^)]*\)\s*{[^}]*super\(\);)'] *)
Definition constructor_pattern : regex :=
  Cat (word (lit "constructor("))
    (Cat (Star (Except rparen))
       (Cat (One (Only rparen))
          (Cat (Star WhiteSpace)
             (Cat (One (Only lbrace))
                (Cat (Star (Except rbrace)) (word (lit "super();"))))))).

(** The text of a match at the head of [s] that leaves [rest]. *)
Definition matched (s rest : str) : str := take (length s - length rest) s.

Definition IMPORT : str := lit "import".

(** [import_pattern] tried at the head of [s], in closed form: the text of
    group 1 and what follows it.  [[^;]+] takes every character up to the
    first semicolon; giving some back never helps, because the next
    character would not be a semicolon.  [import_match_regex] proves that
    this is what the backtracking matcher returns. *)
Definition import_match (s : str) : option (str * str) :=
  if startswith IMPORT s then
    let '(run, after) := span (not_char semicolon) (drop (length IMPORT) s) in
    match run, after with
    | _ :: _, _ :: rest => Some (IMPORT ++ run ++ [semicolon], rest)
    | _, _ => None
    end
  else None.

(** The scan of [re.findall]/[re.finditer]: the non-overlapping matches from
    left to right, each with the index it starts at. *)
Fixpoint import_finditer_aux (skip pos : nat) (s : str) : list (nat * str) :=
  match s with
  | [] => []
  | _ :: t =>
      match skip with
      | S k => import_finditer_aux k (S pos) t
      | O =>
          match import_match s with
          | Some (m, _) => (pos, m) :: import_finditer_aux (length m - 1) (S pos) t
          | None => import_finditer_aux O (S pos) t
          end
      end
  end.

Definition import_finditer (s : str) : list (nat * str) :=
  import_finditer_aux O O s.

(** [re.findall(import_pattern, content)] *)
Definition import_findall (s : str) : list str := (import_finditer s).*2.

Definition CTOR : str := lit "constructor(".
Definition SUPER : str := lit "super();".

(** [constructor_pattern] tried at the head of [s], in closed form: the text
    of group 1.  [[^)]*] stops at the first closing parenthesis and [\s*] at
    the first character that is not white space, which has to be the opening
    brace.  [[^}]*] is greedy: it runs up to the first closing brace (or the
    end of the text) and then backtracks to the last place in that run where
    [super();] follows.  [ctor_match_regex] proves that this is what the
    backtracking matcher returns. *)
Definition ctor_match (s : str) : option str :=
  if startswith CTOR s then
    let '(p, a1) := span (not_char rparen) (drop (length CTOR) s) in
    match a1 with
    | [] => None
    | _ :: a2 =>
        let '(w, a3) := span is_space a2 in
        match a3 with
        | [] => None
        | c :: a4 =>
            if (c =? lbrace)%N then
              let '(b, _) := span (not_char rbrace) a4 in
              match rfind SUPER b with
              | Some k =>
                  Some (CTOR ++ p ++ [rparen] ++ w ++ [lbrace] ++ take k b ++ SUPER)
              | None => None
              end
            else None
        end
    end
  else None.

(** [re.search(constructor_pattern, content, re.DOTALL)]: the match at the
    leftmost index that has one.  The pattern has no dot, so the flag
    changes nothing. *)
Fixpoint ctor_search_from (pos : nat) (s : str) : option (nat * str) :=
  match ctor_match s with
  | Some m => Some (pos, m)
  | None =>
      match s with
      | [] => None
      | _ :: t => ctor_search_from (S pos) t
      end
  end.

Definition ctor_search (s : str) : option (nat * str) := ctor_search_from O s.

(** ** The transformation of one file's content *)

Definition IMPORT_MARK : str := lit "import DebugLogger".
Definition IMPORT_LINE : str := lit "import DebugLogger from './DebugLogger.js';".
Definition LOGGER_MARK : str := lit "this.debug = DebugLogger.create".

(** The f-string [f"\n    this.debug = DebugLogger.create('{class_name}');"] *)
Definition logger_line (class_name : str) : str :=
  NL :: lit "    this.debug = DebugLogger.create('" ++ class_name ++ lit "');".

(** Lines 38-49 of the script. *)
Definition insert_import (content : str) : str :=
  if contains IMPORT_MARK content then content
  else
    match last (import_findall content) with
    | Some last_import =>
        let replacement := last_import ++ NL :: IMPORT_LINE in
        replace_first last_import replacement content
    | None => IMPORT_LINE ++ NL :: content
    end.

(** Lines 51-59 of the script. *)
Definition insert_logger (class_name content : str) : str :=
  if contains LOGGER_MARK content then content
  else
    match ctor_search content with
    | Some (_, old_constructor) =>
        let new_constructor := old_constructor ++ logger_line class_name in
        replace_first old_constructor new_constructor content
    | None => content
    end.

(** Lines 61-68 of the script. *)
Definition replacements : list (str * str) :=
  [ (lit "console.log(", lit "this.debug.log(");
    (lit "console.warn(", lit "this.debug.warn(");
    (lit "console.error(", lit "this.debug.error(");
    (lit "console.info(", lit "this.debug.info(");
    (lit "console.debug(", lit "this.debug.debug(") ].

(** Lines 70-71: the loop over [replacements]. *)
Definition call_site_substitution (content : str) : str :=
  fold_left (λ c pr, re_sub pr.1 pr.2 c) replacements content.

(** What [update_file] writes back, as a function of what it read. *)
Definition transform (class_name content : str) : str :=
  call_site_substitution (insert_logger class_name (insert_import content)).

(** ** The file system, the output and the batch *)

(** What the script does to the outside world, in order. *)
Inductive event :=
| Print (line : str)
| Read (path : str)
| Write (path content : str).

(** The files that exist, each with the text [f.read()] returns for it, and
    the trace so far.  [os.path.exists] holds of the paths in the map. *)
Record world := World { files : gmap str str; trace : list event }.

Definition emit (e : event) (w : world) : world :=
  World (files w) (trace w ++ [e]).

Definition write_file (path content : str) (w : world) : world :=
  World (<[path := content]> (files w)) (trace w ++ [Write path content]).

(** The check mark of the success line, U+2713. *)
Definition CHECK_MARK : N := 10003%N.

(** [update_file(filepath, class_name)] *)
Definition update_file (filepath class_name : str) (w : world) : world :=
  match files w !! filepath with
  | None =>
      emit (Print (lit "File " ++ filepath ++ lit " not found, skipping...")) w
  | Some content =>
      let w1 := emit (Print (lit "Updating " ++ filepath ++ lit "...")) w in
      let w2 := emit (Read filepath) w1 in
      let w3 := write_file filepath (transform class_name content) w2 in
      emit (Print (lit "  " ++ CHECK_MARK :: lit " Updated " ++ filepath)) w3
  end.

Definition files_config : list (str * str) :=
  [ (lit "src/CleanupManager.js", lit "CleanupManager");
    (lit "src/CryptoManager.js", lit "CryptoManager");
    (lit "src/DistributedStorageManager.js", lit "DistributedStorageManager");
    (lit "src/EnvironmentDetector.js", lit "EnvironmentDetector");
    (lit "src/EventEmitter.js", lit "EventEmitter");
    (lit "src/EvictionManager.js", lit "EvictionManager");
    (lit "src/MediaManager.js", lit "MediaManager");
    (lit "src/MeshOptimizer.js", lit "MeshOptimizer");
    (lit "src/PeerDiscovery.js", lit "PeerDiscovery");
    (lit "src/PeerPigeonMesh.js", lit "PeerPigeonMesh");
    (lit "src/SignalingClient.js", lit "SignalingClient");
    (lit "src/SignalingHandler.js", lit "SignalingHandler");
    (lit "src/StorageManager.js", lit "StorageManager");
    (lit "src/TimerUtils.js", lit "TimerUtils");
    (lit "src/WebDHT.js", lit "WebDHT") ].

Definition print_all (lines : list str) (w : world) : world :=
  fold_left (λ w l, emit (Print l) w) lines w.

Definition header : list str :=
  [ lit "Updating PeerPigeon files to use DebugLogger...";
    replicate 50 61%N ].

Definition banner : list str :=
  [ NL :: lit "Debug logger integration complete!";
    NL :: lit "Usage examples:";
    lit "  // Enable all debugging";
    lit "  DebugLogger.enableAll();";
    [];
    lit "  // Enable specific modules";
    lit "  DebugLogger.enable('GossipManager');";
    lit "  DebugLogger.enable('PeerConnection');";
    [];
    lit "  // Enable multiple modules";
    lit "  DebugLogger.enableModules(['GossipManager', 'ConnectionManager', 'PeerConnection']);";
    [];
    lit "  // Disable all (default state)";
    lit "  DebugLogger.disableAll();" ].

(** The loop of [main] over the items of a configuration, in their order. *)
Definition run_entries (config : list (str * str)) (w : world) : world :=
  fold_left (λ w entry, update_file entry.1 entry.2 w) config w.

(** [main], for any configuration table. *)
Definition main_with (config : list (str * str)) (w : world) : world :=
  print_all banner (run_entries config (print_all header w)).

Definition main : world → world := main_with files_config.

(** ** Notions the properties are stated with *)

(** The character [c] does not occur in [s]. *)
Definition absent (c : N) (s : str) : bool := forallb (not_char c) s.

(** A text the import pattern matches: [import], then one or more
    characters other than a semicolon, then a semicolon. *)
Definition import_stmt (m : str) : Prop :=
  ∃ run, m = IMPORT ++ run ++ [semicolon] ∧ run ≠ [] ∧
         absent semicolon run = true.

(** The document has a place where the import pattern matches. *)
Definition has_import (s : str) : Prop :=
  ∃ pre m post, s = pre ++ m ++ post ∧ import_stmt m.

(** A text the constructor pattern matches: the header [constructor(p)],
    white space, the opening brace, a part [b] of the body without a closing
    brace, and [super();]. *)
Definition ctor_prolog (m : str) : Prop :=
  ∃ p w b, m = CTOR ++ p ++ rparen :: w ++ lbrace :: b ++ SUPER ∧
           absent rparen p = true ∧ forallb is_space w = true ∧
           absent rbrace b = true.

(** The document has a place where the constructor pattern matches. *)
Definition has_ctor (s : str) : Prop :=
  ∃ pre m post, s = pre ++ m ++ post ∧ ctor_prolog m.

(** [ins] was put into the document at one place, and nothing else changed. *)
Definition spliced (ins X Y : str) : Prop :=
  ∃ u v, X = u ++ v ∧ Y = u ++ ins ++ v.

(** Some rule's left-hand side starts at the head of [s]. *)
Definition opener_at (rs : list (str * str)) (s : str) : bool :=
  existsb (λ pr, startswith pr.1 s) rs.

(** [rewr strict rs X Y]: [Y] is [X] with some occurrences of left-hand
    sides of the rules [rs] replaced by the right-hand sides, read from left to
    right, and every other character kept.  When [strict] holds a character
    is only kept where no left-hand side starts, so every occurrence is
    replaced. *)
Inductive rewr (strict : bool) (rs : list (str * str)) : str → str → Prop :=
| rewr_nil : rewr strict rs [] []
| rewr_keep c X Y :
    (strict = true → opener_at rs (c :: X) = false) →
    rewr strict rs X Y → rewr strict rs (c :: X) (c :: Y)
| rewr_repl o n X Y :
    (o, n) ∈ rs → rewr strict rs X Y → rewr strict rs (o ++ X) (n ++ Y).

(** One of the two texts is a prefix of the other: both can start at the
    same place of a document. *)
Definition compatible (a b : str) : bool := startswith a b || startswith b a.

(** [o] can start at no position inside an occurrence of [L]. *)
Fixpoint clash_free (L o : str) : bool :=
  match L with
  | [] => true
  | _ :: L' => negb (compatible L o) && clash_free L' o
  end.

(** Where [o] can start inside an occurrence of [L] it covers the rest of
    [L], and so does what replaces it. *)
Fixpoint lit_safe (L o n : str) : bool :=
  match L with
  | [] => true
  | _ :: L' =>
      (negb (compatible L o) || (startswith L o && startswith L n)) &&
      lit_safe L' o n
  end.

(** The constructor pattern as a scan, state by state: inside the body up to
    [super();], between the header and the brace, inside the parameter
    list, at the keyword, anywhere in the document. *)
Fixpoint gapB (s : str) : bool :=
  startswith SUPER s ||
  match s with
  | [] => false
  | c :: t => not_char rbrace c && gapB t
  end.

Fixpoint gapW (s : str) : bool :=
  match s with
  | [] => false
  | c :: t => if (c =? lbrace)%N then gapB t else is_space c && gapW t
  end.

Fixpoint gapP (s : str) : bool :=
  match s with
  | [] => false
  | c :: t => if (c =? rparen)%N then gapW t else gapP t
  end.

Definition ctor_at (s : str) : bool :=
  startswith CTOR s && gapP (drop (length CTOR) s).

Fixpoint has_ctor_b (s : str) : bool :=
  ctor_at s ||
  match s with
  | [] => false
  | _ :: t => has_ctor_b t
  end.

(** The side conditions under which replacing [o] by [n] cannot break a
    place where the constructor pattern matches. *)
Definition ctor_safe (o n : str) : bool :=
  clash_free CTOR o && lit_safe SUPER o n &&
  clash_free o CTOR && clash_free o SUPER &&
  absent rparen o && absent rparen n && absent rbrace n &&
  match (span is_space o).2 with
  | c :: _ => negb (c =? lbrace)%N
  | [] => false
  end.

(** The side conditions under which replacing [o] by [n] cannot break an
    occurrence of [p]. *)
Definition occ_safe (p o n : str) : bool :=
  lit_safe p o n && clash_free o p.

(** The side conditions under which a further pattern [old] and an earlier
    rule [o ↦ n] do not interfere. *)
Definition compose_safe (old o n : str) : bool :=
  negb (Nat.eqb (length n) 0) && clash_free old o && clash_free old n &&
  clash_free n old.

(** The side conditions under which the rule [o' ↦ n] cannot produce or
    hide an occurrence of [o]. *)
Definition clean_safe (o o' n : str) : bool :=
  lit_safe o n o' && clash_free n o.

(** The rules [later] can be run one after the other behind the rules
    [earlier]: no pattern is empty and none interferes with a rule run
    before it. *)
Fixpoint compose_ok (earlier later : list (str * str)) : bool :=
  match later with
  | [] => true
  | r :: t =>
      negb (Nat.eqb (length r.1) 0) &&
      forallb (λ pr, compose_safe r.1 pr.1 pr.2) earlier &&
      compose_ok (earlier ++ [r]) t
  end.

(** No rule of [rs] can produce or hide an occurrence of a left-hand side. *)
Definition rules_clean (rs : list (str * str)) : bool :=
  forallb (λ r, negb (Nat.eqb (length r.1) 0) &&
                forallb (λ pr, clean_safe r.1 pr.1 pr.2) rs) rs.

(** [a == b] *)
Definition str_eqb (a b : str) : bool :=
  Nat.eqb (length a) (length b) && startswith a b.

(** Two rules whose left-hand sides can start at the same place are the same
    rule, and no left-hand side is empty. *)
Definition rules_distinct (rs : list (str * str)) : bool :=
  forallb (λ r1, negb (Nat.eqb (length r1.1) 0) &&
     forallb (λ r2, (str_eqb r1.1 r2.1 && str_eqb r1.2 r2.2) ||
                    negb (compatible r1.1 r2.1)) rs) rs.

(** No left-hand side of [rs] can overlap an occurrence of [L]. *)
Definition inert (rs : list (str * str)) (L : str) : bool :=
  forallb (λ pr, negb (Nat.eqb (length pr.1) 0) &&
                 clash_free L pr.1 && clash_free pr.1 L) rs.

Definition swap_rules (rs : list (str * str)) : list (str * str) :=
  map (λ pr, (pr.2, pr.1)) rs.

(** No call opener of the script occurs in [s]. *)
Definition no_opener (s : str) : bool :=
  forallb (λ pr, negb (contains pr.1 s)) replacements.

(** No call opener on the logger instance occurs in [s]. *)
Definition no_logger_call (s : str) : bool :=
  forallb (λ pr, negb (contains pr.2 s)) replacements.

(** No left-hand side can start inside the left-hand side of a rule, behind
    its first character. *)
Definition rules_apart (rs : list (str * str)) : bool :=
  forallb (λ r, forallb (λ pr, clash_free (tail pr.1) r.1) rs) rs.

(** No right-hand side can start inside a right-hand side, behind its first
    character. *)
Definition rules_back (rs : list (str * str)) : bool :=
  forallb (λ r, forallb (λ pr, lit_safe (tail r.2) pr.2 pr.1) rs) rs.

(** The component name can be written into the logger line as it is: no
    call opener overlaps [super();] and the line, and the name holds no
    marker. *)
Definition plain_name (class_name : str) : bool :=
  inert replacements (SUPER ++ logger_line class_name) &&
  Nat.eqb (count_sub LOGGER_MARK class_name) 0.

(** The notice of [update_file] for a path that does not exist. *)
Definition skip_notice (filepath : str) : str :=
  lit "File " ++ filepath ++ lit " not found, skipping...".

(** What one entry of the table does to the outside world when it is run
    alone on the files [fs]. *)
Definition entry_events (fs : gmap str str) (entry : str * str) : list event :=
  trace (update_file entry.1 entry.2 (World fs [])).

(** The character [c] occurs in no left-hand side behind its first
    character. *)
Definition heads_only (c : N) (rs : list (str * str)) : bool :=
  forallb (λ pr, absent c (tail pr.1)) rs.



(** ** Examples of the specification *)

(** The component name of the specification's example. *)
Definition Widget : str := lit "Widget".




(** A document without import statements. *)
Definition doc_no_import : str := lit "class A { m() { console.log(1); } }".

(** A document without import statements, with a constructor. *)
Definition doc_ctor_no_import : str := lit "constructor() { super(); }".

(** The constructor of the specification's example, in a class. *)
Definition doc_widget : str :=
  lit "class W extends B {" ++
  NL :: lit "  constructor(x) { super(); this.x = x; }" ++ NL :: lit "}".

(** A constructor with two [super();] calls before the first closing
    brace. *)
Definition doc_two_super : str :=
  lit "constructor() { super(); a(); super(); }".

(** A document without a constructor. *)
Definition doc_no_ctor : str :=
  lit "import a from 'a';" ++ NL :: lit "function f() { console.log(1); }".

Definition doc_block_first : str :=
  lit "class A extends B { constructor(a) { if (a) { a = 1; } super(); } }".

(** The five calls of the specification's example. *)
Definition doc_five_calls : str :=
  lit "console.log(a); console.warn(b); console.error(c); console.info(d); console.debug(e);".

(** A file system with one file, and a configuration for it. *)
Definition world_one_file : world :=
  World {[ lit "a.js" := lit "console.log(1)" ]} [].

(** Source text written without semicolons. *)
Definition doc_semicolon_free : str :=
  lit "import a from 'a'" ++
  NL :: lit "class B extends A { constructor() { super() } m() { console.log(1) } }".

(** The text of the last import statement is the text of the first one
    too. *)
Definition doc_import_twice : str :=
  lit "import a;" ++ NL :: lit "import b;" ++ NL :: lit "import a;".

(** Two classes in one file. *)
Definition doc_two_classes : str :=
  lit "class A extends B { constructor() { super(); } } class C extends B { constructor() { super(); } }".

(** A working directory with one of the configured files and one other
    file. *)
Definition world_repo : world :=
  World {[ lit "src/WebDHT.js" := doc_widget;
           lit "README.md" := lit "console.log(1)" ]} [].

(** A table of two entries, and the same table in the other order. *)
Definition config_ab : list (str * str) :=
  [ (lit "src/WebDHT.js", lit "WebDHT"); (lit "README.md", lit "Readme") ].
Definition config_ba : list (str * str) :=
  [ (lit "README.md", lit "Readme"); (lit "src/WebDHT.js", lit "WebDHT") ].



(** * Proofs *)

(** The literals stay folded when goals are simplified. *)
Global Arguments lit : simpl never.
Global Arguments IMPORT : simpl never.
Global Arguments CTOR : simpl never.
Global Arguments SUPER : simpl never.
Global Arguments IMPORT_MARK : simpl never.
Global Arguments IMPORT_LINE : simpl never.
Global Arguments LOGGER_MARK : simpl never.

(** Brings nested concatenations to one shape. *)
Ltac reassoc := repeat first [rewrite <- app_assoc | progress (cbn [app])].

(** ** Prefixes and occurrences *)

Lemma startswith_nil s : startswith [] s = true.
Proof. by destruct s. Qed.

Lemma startswith_app p r : startswith p (p ++ r) = true.
Proof. induction p as [|a p IH]; simpl; [done|]. by rewrite N.eqb_refl. Qed.

Lemma startswith_refl p : startswith p p = true.
Proof. induction p as [|a p IH]; simpl; [done|]. by rewrite N.eqb_refl. Qed.

Lemma startswith_inv p s :
  startswith p s = true → s = p ++ drop (length p) s.
Proof.
  revert s. induction p as [|a p IH]; intros [|b s] H; simpl in *; try done.
  apply andb_true_iff in H as [Hab H]. apply N.eqb_eq in Hab as ->.
  f_equal. by apply IH.
Qed.

Lemma startswith_iff p s : startswith p s = true ↔ ∃ r, s = p ++ r.
Proof.
  split.
  - intros H. eexists. by apply startswith_inv.
  - intros [r ->]. apply startswith_app.
Qed.

Lemma startswith_app_l p a b :
  startswith p a = true → startswith p (a ++ b) = true.
Proof.
  rewrite !startswith_iff. intros [r ->]. exists (r ++ b). by rewrite app_assoc.
Qed.

Lemma startswith_trans a b s :
  startswith a b = true → startswith b s = true → startswith a s = true.
Proof.
  rewrite !startswith_iff. intros [r ->] [r' ->]. exists (r ++ r').
  by rewrite app_assoc.
Qed.

Lemma startswith_cons_false a p c s :
  a ≠ c → startswith (a :: p) (c :: s) = false.
Proof. intros H. simpl. by apply N.eqb_neq in H as ->. Qed.

(** Two prefixes of one text are compatible. *)
Lemma prefixes_compatible a b s :
  startswith a s = true → startswith b s = true → compatible a b = true.
Proof.
  unfold compatible. revert b s.
  induction a as [|x a IH]; intros [|y b] [|z s] Ha Hb; simpl in *; try done.
  apply andb_true_iff in Ha as [Hx Ha]. apply andb_true_iff in Hb as [Hy Hb].
  apply N.eqb_eq in Hx as ->. apply N.eqb_eq in Hy as ->.
  rewrite N.eqb_refl. simpl. by apply (IH b s).
Qed.

Lemma absent_app c a b : absent c (a ++ b) = absent c a && absent c b.
Proof. apply forallb_app. Qed.

Lemma absent_cons c x a : absent c (x :: a) = not_char c x && absent c a.
Proof. done. Qed.

Lemma not_char_true c x : not_char c x = true ↔ x ≠ c.
Proof. unfold not_char. rewrite negb_true_iff. apply N.eqb_neq. Qed.

Lemma not_char_false c x : not_char c x = false ↔ x = c.
Proof. unfold not_char. rewrite negb_false_iff. apply N.eqb_eq. Qed.

(** A text without the character [c] cannot reach over a [c]. *)
Lemma startswith_sep p a c b :
  absent c p = true → startswith p (a ++ c :: b) = startswith p a.
Proof.
  revert a. induction p as [|x p IH]; intros a H; [by rewrite !startswith_nil|].
  rewrite absent_cons in H. apply andb_true_iff in H as [Hx H].
  apply not_char_true in Hx. destruct a as [|y a]; simpl.
  - by apply N.eqb_neq in Hx as ->.
  - by rewrite IH.
Qed.

Lemma contains_nil_r p : p ≠ [] → contains p [] = false.
Proof. by destruct p. Qed.

Lemma count_sub_nil_r p : p ≠ [] → count_sub p [] = 0.
Proof. by destruct p. Qed.

Lemma count_sub_sep p a c b :
  p ≠ [] → absent c p = true →
  count_sub p (a ++ c :: b) = count_sub p a + count_sub p b.
Proof.
  intros Hp Hc. induction a as [|y a IH].
  - rewrite count_sub_nil_r by done. simpl.
    destruct p as [|x p]; [done|]. rewrite absent_cons in Hc.
    apply andb_true_iff in Hc as [Hx _]. apply not_char_true in Hx.
    by rewrite startswith_cons_false.
  - change ((y :: a) ++ c :: b) with (y :: (a ++ c :: b)).
    cbn [count_sub]. rewrite IH.
    change (y :: a ++ c :: b) with ((y :: a) ++ c :: b).
    rewrite startswith_sep by done. lia.
Qed.

Lemma count_sub_sep_head p c b :
  p ≠ [] → absent c p = true → count_sub p (c :: b) = count_sub p b.
Proof.
  intros Hp Hc. change (c :: b) with ([] ++ c :: b).
  rewrite (count_sub_sep p [] c b Hp Hc). by rewrite count_sub_nil_r.
Qed.

Lemma contains_count p s : contains p s = negb (Nat.eqb (count_sub p s) 0).
Proof.
  induction s as [|y s IH]; simpl.
  - by destruct (startswith p []).
  - rewrite IH. destruct (startswith p (y :: s)); simpl; [done|].
    done.
Qed.

Lemma contains_false_count p s : contains p s = false ↔ count_sub p s = 0.
Proof.
  rewrite contains_count, negb_false_iff. apply Nat.eqb_eq.
Qed.

Lemma contains_sep p a c b :
  p ≠ [] → absent c p = true →
  contains p (a ++ c :: b) = contains p a || contains p b.
Proof.
  intros Hp Hc. rewrite !contains_count, count_sub_sep by done.
  destruct (count_sub p a), (count_sub p b); done.
Qed.

Lemma contains_starts p s : startswith p s = true → contains p s = true.
Proof. destruct s; simpl; by intros ->. Qed.

Lemma contains_iff p s : contains p s = true ↔ ∃ u v, s = u ++ p ++ v.
Proof.
  split.
  - induction s as [|y s IH]; simpl; intros H.
    + rewrite orb_false_r in H. apply startswith_iff in H as [r Hr].
      exists [], r. done.
    + apply orb_true_iff in H as [H|H].
      * apply startswith_iff in H as [r Hr]. by exists [], r.
      * destruct (IH H) as (u & v & ->). by exists (y :: u), v.
  - intros (u & v & ->). induction u as [|y u IH]; simpl.
    + apply contains_starts, startswith_app.
    + by rewrite IH, orb_true_r.
Qed.

Lemma contains_app_r p a b : contains p b = true → contains p (a ++ b) = true.
Proof.
  rewrite !contains_iff. intros (u & v & ->). exists (a ++ u), v.
  by rewrite <- app_assoc.
Qed.

Lemma contains_app_l p a b : contains p a = true → contains p (a ++ b) = true.
Proof.
  rewrite !contains_iff. intros (u & v & ->). exists u, (v ++ b).
  by rewrite <- !app_assoc.
Qed.

Lemma contains_cons p c s : contains p s = true → contains p (c :: s) = true.
Proof. apply (contains_app_r p [c]). Qed.

Lemma contains_false_app_r p a b :
  contains p (a ++ b) = false → contains p b = false.
Proof.
  intros H. destruct (contains p b) eqn:E; [|done].
  by rewrite (contains_app_r p a b E) in H.
Qed.

Lemma contains_false_app_l p a b :
  contains p (a ++ b) = false → contains p a = false.
Proof.
  intros H. destruct (contains p a) eqn:E; [|done].
  by rewrite (contains_app_l p a b E) in H.
Qed.

Lemma count_sub_prefix_le q p s :
  startswith q p = true → count_sub p s ≤ count_sub q s.
Proof.
  intros Hq. induction s as [|y s IH]; simpl.
  - destruct (startswith p []) eqn:E; [|lia].
    by rewrite (startswith_trans _ _ _ Hq E).
  - destruct (startswith p (y :: s)) eqn:E.
    + rewrite (startswith_trans _ _ _ Hq E). lia.
    + destruct (startswith q (y :: s)); lia.
Qed.

Lemma count_sub_one p s i :
  i ≤ length s → startswith p (drop i s) = true → 1 ≤ count_sub p s.
Proof.
  revert s. induction i as [|i IH]; intros s Hi Hs.
  - rewrite drop_0 in Hs. destruct s; cbn [count_sub]; rewrite Hs; lia.
  - destruct s as [|c t]; [cbn in Hi; lia|]. cbn [drop] in Hs.
    cbn [count_sub]. cbn [length] in Hi.
    specialize (IH t ltac:(lia) Hs). lia.
Qed.

Lemma count_sub_two p s j i :
  j < i → i ≤ length s →
  startswith p (drop j s) = true → startswith p (drop i s) = true →
  2 ≤ count_sub p s.
Proof.
  revert s i. induction j as [|j IH]; intros s i Hji Hi Hj Hs.
  - rewrite drop_0 in Hj. destruct s as [|c t]; [cbn in Hi; lia|].
    cbn [count_sub]. rewrite Hj. destruct i as [|i]; [lia|].
    cbn [drop length] in *.
    pose proof (count_sub_one p t i ltac:(lia) Hs). lia.
  - destruct s as [|c t]; [cbn in Hi; lia|]. destruct i as [|i]; [lia|].
    cbn [drop length count_sub] in *.
    specialize (IH t i ltac:(lia) ltac:(lia) Hj Hs). lia.
Qed.

(** ** [find], [rfind], [replace] and [span] *)

Lemma find_None p s : find p s = None ↔ contains p s = false.
Proof.
  induction s as [|y s IH]; simpl.
  - destruct (startswith p []); simpl; split; done.
  - destruct (startswith p (y :: s)); simpl; [split; done|].
    rewrite <- IH. destruct (find p s); simpl; split; done.
Qed.

Lemma find_Some p s i :
  find p s = Some i ↔
  i ≤ length s ∧ startswith p (drop i s) = true ∧
  ∀ j, j < i → startswith p (drop j s) = false.
Proof.
  revert i. induction s as [|y s IH]; intros i; simpl.
  - destruct (startswith p []) eqn:E; split.
    + intros [= <-]. repeat split; [done| |lia]. done.
    + intros (Hi & _ & _). f_equal. lia.
    + done.
    + intros (Hi & H & _). assert (i = 0) as -> by lia. simpl in H. congruence.
  - destruct (startswith p (y :: s)) eqn:E; split.
    + intros [= <-]. repeat split; [lia|done|lia].
    + intros (_ & _ & H). destruct i as [|i]; [done|].
      specialize (H 0 ltac:(lia)). simpl in H. congruence.
    + destruct (find p s) as [i'|] eqn:F; simpl; [|done]. intros [= <-].
      destruct (IH i') as [IH1 _]. destruct (IH1 eq_refl) as (Hi & H & Hlt).
      repeat split; [lia|done|].
      intros [|j] Hj; simpl; [done|]. apply Hlt. lia.
    + intros (Hi & H & Hlt). destruct i as [|i]; simpl in H; [congruence|].
      assert (find p s = Some i) as ->; [|done].
      apply IH. repeat split; [lia|done|].
      intros j Hj. apply (Hlt (S j)). lia.
Qed.

(** The one occurrence [replace(old, new, 1)] rewrites is the leftmost. *)
Lemma replace_first_at old new s i :
  find old s = Some i →
  s = take i s ++ old ++ drop (i + length old) s ∧
  replace_first old new s = take i s ++ new ++ drop (i + length old) s.
Proof.
  intros F. unfold replace_first. rewrite F. split; [|done].
  apply find_Some in F as (_ & H & _). apply startswith_inv in H.
  rewrite drop_drop in H. rewrite <- H. by rewrite take_drop.
Qed.

Lemma replace_first_spec old new s :
  contains old s = true →
  ∃ u v, s = u ++ old ++ v ∧ find old s = Some (length u) ∧
         replace_first old new s = u ++ new ++ v.
Proof.
  intros H. destruct (find old s) as [i|] eqn:F.
  - destruct (replace_first_at old new s i F) as [E R].
    exists (take i s), (drop (i + length old) s). split; [done|]. split; [|done].
    apply find_Some in F as (Hi & _). rewrite length_take. f_equal. lia.
  - apply find_None in F. congruence.
Qed.

Lemma rfind_None p s : rfind p s = None ↔ contains p s = false.
Proof.
  induction s as [|y s IH]; simpl.
  - destruct (startswith p []); simpl; split; done.
  - destruct (rfind p s) eqn:F.
    + split; [done|]. intros H. apply orb_false_iff in H as [_ H].
      apply IH in H. done.
    + destruct IH as [IH _]. rewrite (IH eq_refl), orb_false_r.
      destruct (startswith p (y :: s)); split; done.
Qed.

Lemma rfind_Some p s k :
  rfind p s = Some k →
  k ≤ length s ∧ startswith p (drop k s) = true ∧
  ∀ j, k < j → j ≤ length s → startswith p (drop j s) = false.
Proof.
  revert k. induction s as [|y s IH]; intros k; simpl.
  - destruct (startswith p []) eqn:E; [|done]. intros [= <-].
    repeat split; [done|done|]. intros j ? ?. lia.
  - destruct (rfind p s) as [k'|] eqn:F.
    + intros [= <-]. destruct (IH k' eq_refl) as (Hk & H & Hgt).
      repeat split; [lia|done|]. intros [|j] ? ?; [lia|]. simpl.
      apply Hgt; lia.
    + destruct (startswith p (y :: s)) eqn:E; [|done]. intros [= <-].
      repeat split; [lia|done|]. intros [|j] ? ?; [lia|]. simpl.
      apply rfind_None in F. destruct (startswith p (drop j s)) eqn:E'; [|done].
      apply contains_starts in E'.
      rewrite <- (take_drop j s), (contains_app_r _ _ _ E') in F. done.
Qed.

Lemma span_app f s : (span f s).1 ++ (span f s).2 = s.
Proof.
  induction s as [|c s IH]; simpl; [done|].
  destruct (f c); [|done]. destruct (span f s). simpl in *. by f_equal.
Qed.

Lemma span_all f s : forallb f (span f s).1 = true.
Proof.
  induction s as [|c s IH]; simpl; [done|].
  destruct (f c) eqn:E; [|done]. destruct (span f s). simpl in *.
  by rewrite E, IH.
Qed.

Lemma span_stop f s c r : (span f s).2 = c :: r → f c = false.
Proof.
  induction s as [|x s IH]; simpl; [done|].
  destruct (f x) eqn:E.
  - destruct (span f s). simpl in *. done.
  - simpl. by intros [= -> ->].
Qed.

Lemma span_unique f a c r :
  forallb f a = true → f c = false → span f (a ++ c :: r) = (a, c :: r).
Proof.
  intros Ha Hc. induction a as [|x a IH]; simpl in *.
  - by rewrite Hc.
  - apply andb_true_iff in Ha as [Hx Ha]. by rewrite Hx, (IH Ha).
Qed.

(** ** [re.sub] with a literal pattern *)

Lemma re_sub_aux_skip old new k s :
  re_sub_aux old new k s = re_sub old new (drop k s).
Proof.
  revert k. induction s as [|c s IH]; intros [|k]; simpl; done.
Qed.

Lemma re_sub_hit old new r :
  old ≠ [] → re_sub old new (old ++ r) = new ++ re_sub old new r.
Proof.
  intros Ho. destruct old as [|a o]; [done|]. unfold re_sub.
  change ((a :: o) ++ r) with (a :: (o ++ r)). cbn [re_sub_aux].
  change (a :: (o ++ r)) with ((a :: o) ++ r). rewrite startswith_app.
  rewrite re_sub_aux_skip. cbn [length]. rewrite Nat.sub_succ, Nat.sub_0_r.
  by rewrite drop_app_length.
Qed.

Lemma re_sub_miss old new c t :
  startswith old (c :: t) = false →
  re_sub old new (c :: t) = c :: re_sub old new t.
Proof. intros H. unfold re_sub. cbn [re_sub_aux]. by rewrite H. Qed.

Lemma re_sub_absent old new s :
  contains old s = false → re_sub old new s = s.
Proof.
  induction s as [|c s IH]; [done|]. simpl. intros H.
  apply orb_false_iff in H as [H1 H2]. rewrite re_sub_miss by done.
  f_equal. by apply IH.
Qed.

(** One pass of [re.sub] replaces every occurrence of its pattern, from left
    to right, and keeps every other character. *)
Lemma re_sub_rewr old new s :
  old ≠ [] → rewr true [(old, new)] s (re_sub old new s).
Proof.
  intros Ho. remember (length s) as k eqn:Hk. revert s Hk.
  induction k as [k IH] using lt_wf_ind. intros [|c t] Hk.
  - constructor.
  - destruct (startswith old (c :: t)) eqn:E.
    + apply startswith_iff in E as [r E]. rewrite E, re_sub_hit by done.
      apply rewr_repl; [apply list_elem_of_here|].
      apply (IH (length r)); [|done]. rewrite Hk, E, length_app.
      destruct old; [done|]. simpl. lia.
    + rewrite re_sub_miss by done. apply rewr_keep.
      * intros _. unfold opener_at. simpl. by rewrite E.
      * apply (IH (length t)); [|done]. rewrite Hk. simpl. lia.
Qed.

(** ** Rewriting and what it preserves *)

Lemma rewr_inv st rs Z Y :
  rewr st rs Z Y →
  (Z = [] ∧ Y = []) ∨
  (∃ c X' Y', Z = c :: X' ∧ Y = c :: Y' ∧
              (st = true → opener_at rs Z = false) ∧ rewr st rs X' Y') ∨
  (∃ o n X' Y', (o, n) ∈ rs ∧ Z = o ++ X' ∧ Y = n ++ Y' ∧ rewr st rs X' Y').
Proof. destruct 1; eauto 12. Qed.

Lemma rewr_swap st rs X Y : rewr st rs X Y → rewr false (swap_rules rs) Y X.
Proof.
  induction 1; [constructor|by constructor|].
  apply rewr_repl; [|done]. unfold swap_rules.
  apply list_elem_of_fmap. by exists (o, n).
Qed.

Lemma rewr_refl rs X : rewr false rs X X.
Proof. induction X; by constructor. Qed.

(** Replacing one occurrence is a rewriting. *)
Lemma rewr_splice o n u v : rewr false [(o, n)] (u ++ o ++ v) (u ++ n ++ v).
Proof.
  induction u as [|c u IH]; simpl.
  - apply rewr_repl; [apply list_elem_of_here|apply rewr_refl].
  - by constructor.
Qed.

Lemma rules_forall (f : str → str → bool) rs o n :
  forallb (λ pr, f pr.1 pr.2) rs = true → (o, n) ∈ rs → f o n = true.
Proof.
  intros H Hin. rewrite forallb_forall in H. apply (H (o, n)).
  by apply list_elem_of_In.
Qed.

Lemma rules_impl (f g : str → str → bool) rs :
  (∀ o n, f o n = true → g o n = true) →
  forallb (λ pr, f pr.1 pr.2) rs = true →
  forallb (λ pr, g pr.1 pr.2) rs = true.
Proof.
  intros Hfg. rewrite !forallb_forall. intros H [o n] Hin.
  apply Hfg, (H (o, n) Hin).
Qed.

Lemma clash_free_head L o s :
  L ≠ [] → clash_free L o = true →
  startswith L s = true → startswith o s = true → False.
Proof.
  intros HL Hc H1 H2. destruct L as [|a L]; [done|]. simpl in Hc.
  apply andb_true_iff in Hc as [Hc _].
  by rewrite (prefixes_compatible _ _ _ H1 H2) in Hc.
Qed.

Lemma clash_free_tail a L o : clash_free (a :: L) o = true → clash_free L o = true.
Proof. simpl. intros H. by apply andb_true_iff in H as [_ H]. Qed.

Lemma clash_free_lit_safe L o n :
  clash_free L o = true → lit_safe L o n = true.
Proof.
  induction L as [|a L IH]; [done|]. simpl. intros H.
  apply andb_true_iff in H as [-> H]. simpl. by apply IH.
Qed.

(** A text no left-hand side can start in is carried over unchanged. *)
Lemma rewr_literal_fwd st rs L X Y :
  forallb (λ pr, clash_free L pr.1) rs = true →
  rewr st rs (L ++ X) Y → ∃ Y', Y = L ++ Y' ∧ rewr st rs X Y'.
Proof.
  revert Y. induction L as [|a L IH]; intros Y Hc H; [by exists Y|].
  apply rewr_inv in H as [[? _]|[(c & X' & Y' & E & -> & _ & H)|
                               (o & n & X' & Y' & Hin & E & -> & H)]].
  - done.
  - simpl in E. injection E as <- <-.
    destruct (IH Y') as (Y'' & -> & H'); [|done|by exists Y''].
    revert Hc. apply (rules_impl (λ o _, clash_free (a :: L) o)
                                 (λ o _, clash_free L o)).
    intros o _. apply clash_free_tail.
  - exfalso. apply (clash_free_head (a :: L) o ((a :: L) ++ X)).
    + done.
    + apply (rules_forall (λ o _, clash_free (a :: L) o) rs o n Hc Hin).
    + apply startswith_app.
    + rewrite E. apply startswith_app.
Qed.

(** The same, read from the result. *)
Lemma rewr_literal_bwd st rs L X Y :
  forallb (λ pr, clash_free L pr.2) rs = true →
  rewr st rs X (L ++ Y) → ∃ X', X = L ++ X' ∧ rewr st rs X' Y.
Proof.
  revert X. induction L as [|a L IH]; intros X Hc H; [by exists X|].
  apply rewr_inv in H as [[_ ?]|[(c & X' & Y' & -> & E & _ & H)|
                               (o & n & X' & Y' & Hin & -> & E & H)]].
  - done.
  - simpl in E. injection E as <- <-.
    destruct (IH X') as (X'' & -> & H'); [|done|by exists X''].
    revert Hc. apply (rules_impl (λ _ n, clash_free (a :: L) n)
                                 (λ _ n, clash_free L n)).
    intros _ n. apply clash_free_tail.
  - exfalso. apply (clash_free_head (a :: L) n ((a :: L) ++ Y)).
    + done.
    + apply (rules_forall (λ _ n, clash_free (a :: L) n) rs o n Hc Hin).
    + apply startswith_app.
    + rewrite E. apply startswith_app.
Qed.

(** A text that starts the document still starts it after rewriting. *)
Lemma rewr_startswith st rs L X Y :
  forallb (λ pr, lit_safe L pr.1 pr.2) rs = true →
  rewr st rs X Y → startswith L X = true → startswith L Y = true.
Proof.
  revert X Y. induction L as [|a L IH]; intros X Y Hc H HL; [done|].
  apply rewr_inv in H as [[-> _]|[(c & X' & Y' & -> & -> & _ & H)|
                                (o & n & X' & Y' & Hin & -> & -> & H)]].
  - done.
  - simpl in *. apply andb_true_iff in HL as [-> HL]. simpl.
    apply (IH X'); [|done|done].
    revert Hc. apply (rules_impl (lit_safe (a :: L)) (lit_safe L)).
    intros o n Hs. simpl in Hs. by apply andb_true_iff in Hs as [_ Hs].
  - pose proof (rules_forall (lit_safe (a :: L)) rs o n Hc Hin) as Hs.
    simpl in Hs. apply andb_true_iff in Hs as [Hs _].
    rewrite (prefixes_compatible _ _ _ HL (startswith_app o X')) in Hs.
    simpl in Hs. apply andb_true_iff in Hs as [_ Hs].
    by apply startswith_app_l.
Qed.

Lemma contains_skip o p X :
  clash_free o p = true → contains p (o ++ X) = true → contains p X = true.
Proof.
  induction o as [|a o IH]; [done|]. intros Hc H.
  change ((a :: o) ++ X) with (a :: (o ++ X)) in H. cbn [contains] in H.
  apply orb_true_iff in H as [H|H].
  - exfalso. apply (clash_free_head (a :: o) p ((a :: o) ++ X)); try done.
    apply startswith_app.
  - apply IH; [|done]. by apply clash_free_tail in Hc.
Qed.

(** An occurrence of [p] survives a rewriting that cannot touch it. *)
Lemma rewr_contains st rs p X Y :
  forallb (λ pr, occ_safe p pr.1 pr.2) rs = true →
  rewr st rs X Y → contains p X = true → contains p Y = true.
Proof.
  intros Hc H. induction H as [|c X Y Hs H IH|o n X Y Hin H IH]; [done| |].
  - intros Hp. cbn [contains] in Hp. apply orb_true_iff in Hp as [Hp|Hp].
    + apply contains_starts.
      apply (rewr_startswith st rs p (c :: X)); [|by constructor|done].
      revert Hc. apply (rules_impl (occ_safe p) (lit_safe p)). intros o n Ho.
      by apply andb_true_iff in Ho as [Ho _].
    + by apply contains_cons, IH.
  - intros Hp. apply contains_app_r, IH. apply (contains_skip o); [|done].
    pose proof (rules_forall (occ_safe p) rs o n Hc Hin) as Ho.
    by apply andb_true_iff in Ho as [_ Ho].
Qed.

(** ** The constructor pattern under rewriting *)

Lemma is_space_not_lbrace c : is_space c = true → (c =? lbrace)%N = false.
Proof.
  intros H. destruct (N.eqb_spec c lbrace) as [->|]; [|done].
  vm_compute in H. done.
Qed.

Lemma gapB_skip o X :
  clash_free o SUPER = true → gapB (o ++ X) = true → gapB X = true.
Proof.
  induction o as [|a o IH]; [done|]. intros Hc H.
  change ((a :: o) ++ X) with (a :: (o ++ X)) in H. cbn [gapB] in H.
  apply orb_true_iff in H as [H|H].
  - exfalso. apply (clash_free_head (a :: o) SUPER ((a :: o) ++ X)); try done.
    apply startswith_app.
  - apply andb_true_iff in H as [_ H]. apply IH; [|done].
    by apply clash_free_tail in Hc.
Qed.

Lemma gapB_add n Y :
  absent rbrace n = true → gapB Y = true → gapB (n ++ Y) = true.
Proof.
  induction n as [|a n IH]; [done|]. rewrite absent_cons. intros Hn HY.
  apply andb_true_iff in Hn as [Ha Hn].
  change ((a :: n) ++ Y) with (a :: (n ++ Y)). cbn [gapB].
  by rewrite Ha, (IH Hn HY), orb_true_r.
Qed.

Lemma gapW_block o X c r :
  (span is_space o).2 = c :: r → (c =? lbrace)%N = false →
  gapW (o ++ X) = false.
Proof.
  induction o as [|a o IH]; [done|]. simpl.
  destruct (is_space a) eqn:Ea.
  - destruct (span is_space o) as [o1 o2] eqn:Eo. simpl in *.
    intros E Hc. rewrite (is_space_not_lbrace a Ea). by apply IH.
  - simpl. intros [= -> ->] Hc. by rewrite Hc.
Qed.

Lemma gapP_skip o X : absent rparen o = true → gapP (o ++ X) = gapP X.
Proof.
  induction o as [|a o IH]; [done|]. rewrite absent_cons. intros H.
  apply andb_true_iff in H as [Ha H]. apply not_char_true in Ha.
  simpl. apply N.eqb_neq in Ha as ->. by apply IH.
Qed.

Lemma has_ctor_b_add n Y : has_ctor_b Y = true → has_ctor_b (n ++ Y) = true.
Proof.
  intros H. induction n as [|a n IH]; [done|]. simpl.
  by rewrite IH, orb_true_r.
Qed.

Lemma has_ctor_b_skip o X :
  clash_free o CTOR = true → has_ctor_b (o ++ X) = true → has_ctor_b X = true.
Proof.
  induction o as [|a o IH]; [done|]. intros Hc H.
  change ((a :: o) ++ X) with (a :: (o ++ X)) in H. cbn [has_ctor_b] in H.
  apply orb_true_iff in H as [H|H].
  - exfalso. apply andb_true_iff in H as [H _].
    apply (clash_free_head (a :: o) CTOR ((a :: o) ++ X)); try done.
    apply startswith_app.
  - apply IH; [|done]. by apply clash_free_tail in Hc.
Qed.

Lemma ctor_safe_inv o n :
  ctor_safe o n = true →
  clash_free CTOR o = true ∧ lit_safe SUPER o n = true ∧
  clash_free o CTOR = true ∧ clash_free o SUPER = true ∧
  absent rparen o = true ∧ absent rparen n = true ∧
  absent rbrace n = true ∧
  ∃ c r, (span is_space o).2 = c :: r ∧ (c =? lbrace)%N = false.
Proof.
  unfold ctor_safe. rewrite !andb_true_iff.
  intros (((((((H1 & H2) & H3) & H4) & H5) & H6) & H7) & H8).
  repeat split; try done.
  destruct (span is_space o).2 as [|c r]; [done|]. exists c, r.
  split; [done|]. by apply negb_true_iff.
Qed.

Section ctor_rewriting.
Variables (st : bool) (rs : list (str * str)).
Hypothesis safe : forallb (λ pr, ctor_safe pr.1 pr.2) rs = true.

Lemma ctor_safe_rule o n :
  (o, n) ∈ rs →
  clash_free o CTOR = true ∧ clash_free o SUPER = true ∧
  absent rparen o = true ∧ absent rparen n = true ∧
  absent rbrace n = true ∧
  ∃ c r, (span is_space o).2 = c :: r ∧ (c =? lbrace)%N = false.
Proof.
  intros Hin. pose proof (rules_forall ctor_safe rs o n safe Hin) as H.
  apply ctor_safe_inv in H. tauto.
Qed.

Lemma ctor_safe_CTOR : forallb (λ pr, clash_free CTOR pr.1) rs = true.
Proof.
  revert safe. apply (rules_impl ctor_safe (λ o _, clash_free CTOR o)).
  intros o n H. apply ctor_safe_inv in H. tauto.
Qed.

Lemma ctor_safe_SUPER : forallb (λ pr, lit_safe SUPER pr.1 pr.2) rs = true.
Proof.
  revert safe. apply (rules_impl ctor_safe (lit_safe SUPER)).
  intros o n H. apply ctor_safe_inv in H. tauto.
Qed.

Lemma rewr_gapB X Y : rewr st rs X Y → gapB X = true → gapB Y = true.
Proof.
  induction 1 as [|c X Y Hs H IH|o n X Y Hin H IH]; [done| |]; intros HB.
  - cbn [gapB] in *. apply orb_true_iff in HB as [HB|HB].
    + apply orb_true_iff. left.
      apply (rewr_startswith st rs SUPER (c :: X));
        [apply ctor_safe_SUPER|by constructor|done].
    + apply andb_true_iff in HB as [-> HB]. by rewrite (IH HB), orb_true_r.
  - destruct (ctor_safe_rule o n Hin) as (_ & Ho & _ & _ & Hn & _).
    apply gapB_add; [done|]. apply IH. by apply (gapB_skip o).
Qed.

Lemma rewr_gapW X Y : rewr st rs X Y → gapW X = true → gapW Y = true.
Proof.
  induction 1 as [|c X Y Hs H IH|o n X Y Hin H IH]; [done| |]; intros HW.
  - cbn [gapW] in *. destruct (c =? lbrace)%N.
    + by apply (rewr_gapB X).
    + apply andb_true_iff in HW as [-> HW]. by apply IH.
  - destruct (ctor_safe_rule o n Hin) as (_ & _ & _ & _ & _ & c & r & E & Hc).
    by rewrite (gapW_block o X c r E Hc) in HW.
Qed.

Lemma rewr_gapP X Y : rewr st rs X Y → gapP X = true → gapP Y = true.
Proof.
  induction 1 as [|c X Y Hs H IH|o n X Y Hin H IH]; [done| |]; intros HP.
  - cbn [gapP] in *. destruct (c =? rparen)%N.
    + by apply (rewr_gapW X).
    + by apply IH.
  - destruct (ctor_safe_rule o n Hin) as (_ & _ & Ho & Hn & _).
    rewrite gapP_skip in HP by done. rewrite gapP_skip by done. by apply IH.
Qed.

Lemma rewr_ctor_at X Y : rewr st rs X Y → ctor_at X = true → ctor_at Y = true.
Proof.
  intros H HC. unfold ctor_at in *. apply andb_true_iff in HC as [H1 H2].
  apply startswith_inv in H1. rewrite H1 in H.
  apply rewr_literal_fwd in H as (Y' & -> & H); [|apply ctor_safe_CTOR].
  rewrite startswith_app, drop_app_length. simpl.
  by apply (rewr_gapP (drop (length CTOR) X)).
Qed.

(** A place where the constructor pattern matches survives a rewriting
    whose rules are all [ctor_safe]. *)
Lemma rewr_has_ctor X Y :
  rewr st rs X Y → has_ctor_b X = true → has_ctor_b Y = true.
Proof.
  induction 1 as [|c X Y Hs H IH|o n X Y Hin H IH]; [done| |]; intros HC.
  - cbn [has_ctor_b] in *. apply orb_true_iff in HC as [HC|HC].
    + apply orb_true_iff. left.
      apply (rewr_ctor_at (c :: X)); [by constructor|done].
    + by rewrite (IH HC), orb_true_r.
  - destruct (ctor_safe_rule o n Hin) as (Ho & _).
    apply has_ctor_b_add, IH. by apply (has_ctor_b_skip o).
Qed.
End ctor_rewriting.

(** ** What the constructor pattern matches *)

Lemma span_prefix f a rest :
  forallb f a = true → (span f (a ++ rest)).1 = a ++ (span f rest).1.
Proof.
  intros Ha. induction a as [|x a IH]; simpl in *; [done|].
  apply andb_true_iff in Ha as [Hx Ha]. rewrite Hx.
  specialize (IH Ha). destruct (span f (a ++ rest)). simpl in *. by f_equal.
Qed.

Lemma startswith_span x L s :
  absent x L = true →
  startswith L (span (not_char x) s).1 = startswith L s.
Proof.
  intros HL. pose proof (span_app (not_char x) s) as E.
  destruct (span (not_char x) s) as [b r] eqn:Es. simpl in *.
  destruct r as [|c r].
  - by rewrite app_nil_r in E; subst.
  - assert (c = x) as ->.
    { apply not_char_false. apply (span_stop _ s c r). by rewrite Es. }
    rewrite <- E. by rewrite startswith_sep.
Qed.

Lemma gapP_span s :
  gapP s = match (span (not_char rparen) s).2 with
           | [] => false
           | _ :: a2 => gapW a2
           end.
Proof.
  induction s as [|c s IH]; [done|]. simpl. unfold not_char at 1.
  destruct (c =? rparen)%N; simpl; [done|].
  destruct (span (not_char rparen) s). done.
Qed.

Lemma gapW_span s :
  gapW s = match (span is_space s).2 with
           | [] => false
           | c :: a4 => (c =? lbrace)%N && gapB a4
           end.
Proof.
  induction s as [|c s IH]; [done|]. simpl. destruct (is_space c) eqn:Ec.
  - rewrite (is_space_not_lbrace c Ec). simpl.
    destruct (span is_space s). done.
  - simpl. by destruct (c =? lbrace)%N.
Qed.

Lemma gapW_spaces w R :
  forallb is_space w = true → gapW (w ++ lbrace :: R) = gapB R.
Proof.
  intros Hw. induction w as [|c w IH]; simpl in *; [done|].
  apply andb_true_iff in Hw as [Hc Hw].
  by rewrite (is_space_not_lbrace c Hc), Hc, (IH Hw).
Qed.

Lemma gapB_span s : gapB s = contains SUPER (span (not_char rbrace) s).1.
Proof.
  induction s as [|c s IH]; [done|]. cbn [gapB span].
  destruct (not_char rbrace c) eqn:Ec.
  - rewrite IH. pose proof (startswith_span rbrace SUPER (c :: s) eq_refl) as E.
    cbn [span] in E. rewrite Ec in E.
    destruct (span (not_char rbrace) s) as [b r]. simpl in *.
    by rewrite E.
  - apply not_char_false in Ec as ->. done.
Qed.

Lemma ctor_match_None s : ctor_match s = None ↔ ctor_at s = false.
Proof.
  unfold ctor_match, ctor_at. destruct (startswith CTOR s); [|done].
  rewrite gapP_span. cbn [andb].
  destruct (span (not_char rparen) (drop (length CTOR) s)) as [p [|c1 a2]];
    cbn [snd]; [done|].
  rewrite gapW_span. destruct (span is_space a2) as [w [|c a4]]; cbn [snd];
    [done|].
  destruct (c =? lbrace)%N; cbn [andb]; [|done]. rewrite gapB_span.
  destruct (span (not_char rbrace) a4) as [b r]. cbn [fst].
  destruct (rfind SUPER b) eqn:F.
  - split; [done|]. intros H. apply rfind_None in H. congruence.
  - apply rfind_None in F. by rewrite F.
Qed.

(** The text matched at the head of [s]: a constructor prolog, and the
    [super();] it ends with is the last one before the first closing brace
    behind the opening brace. *)
Lemma ctor_match_Some s m :
  ctor_match s = Some m →
  ∃ p w b post,
    s = m ++ post ∧
    m = CTOR ++ p ++ rparen :: w ++ lbrace :: b ++ SUPER ∧
    absent rparen p = true ∧ forallb is_space w = true ∧
    absent rbrace b = true ∧
    ∀ b2 post2, post = b2 ++ SUPER ++ post2 → absent rbrace b2 = false.
Proof.
  unfold ctor_match. destruct (startswith CTOR s) eqn:E1; [|done].
  apply startswith_inv in E1.
  pose proof (span_app (not_char rparen) (drop (length CTOR) s)) as Ep.
  pose proof (span_all (not_char rparen) (drop (length CTOR) s)) as Hp.
  pose proof (span_stop (not_char rparen) (drop (length CTOR) s)) as Sp.
  destruct (span (not_char rparen) (drop (length CTOR) s)) as [p [|c1 a2]];
    [done|]. cbn [fst snd] in Ep, Hp, Sp.
  specialize (Sp c1 a2 eq_refl). apply not_char_false in Sp as ->.
  pose proof (span_app is_space a2) as Ew.
  pose proof (span_all is_space a2) as Hw.
  destruct (span is_space a2) as [w [|c a4]]; [done|]. cbn [fst snd] in Ew, Hw.
  destruct (N.eqb_spec c lbrace) as [->|]; [|done].
  pose proof (span_app (not_char rbrace) a4) as Eb.
  pose proof (span_all (not_char rbrace) a4) as Hb.
  pose proof (span_prefix (not_char rbrace)) as Pb.
  destruct (span (not_char rbrace) a4) as [B r] eqn:EB. cbn [fst snd] in Eb, Hb.
  destruct (rfind SUPER B) as [k|] eqn:F; [|done]. intros Hm.
  assert (m = CTOR ++ p ++ [rparen] ++ w ++ [lbrace] ++ take k B ++ SUPER)
    as -> by congruence. clear Hm.
  apply rfind_Some in F as (Hk & F1 & F2).
  apply startswith_inv in F1. rewrite drop_drop in F1.
  exists p, w, (take k B), (drop (k + length SUPER) B ++ r).
  repeat split; try done.
  - rewrite E1 at 1. rewrite <- Ep, <- Ew, <- Eb.
    rewrite <- (take_drop k B) at 1. rewrite F1.
    by rewrite <- !app_assoc.
  - fold (absent rbrace B) in Hb. rewrite <- (take_drop k B) in Hb.
    rewrite absent_app in Hb. by apply andb_true_iff in Hb as [Hb _].
  - intros b2 post2 E2. destruct (absent rbrace b2) eqn:A2; [|done].
    exfalso.
    assert (absent rbrace (take k B) = true) as HT.
    { fold (absent rbrace B) in Hb. rewrite <- (take_drop k B) in Hb.
      rewrite absent_app in Hb. by apply andb_true_iff in Hb as [Hb _]. }
    assert (length (take k B) = k) as Lk by (rewrite length_take; lia).
    rewrite <- (take_drop k B) in Eb at 1. rewrite F1 in Eb.
    remember (take k B) as T eqn:ET. clear ET.
    assert (a4 = (T ++ SUPER ++ b2 ++ SUPER) ++ post2) as E4.
    { rewrite <- Eb, <- !app_assoc. by rewrite E2. }
    specialize (Pb (T ++ SUPER ++ b2 ++ SUPER) post2).
    rewrite <- E4, EB in Pb. cbn [fst] in Pb.
    remember (span (not_char rbrace) post2).1 as q eqn:Eq. clear Eq.
    assert (B = (T ++ SUPER ++ b2) ++ SUPER ++ q) as EB'.
    { rewrite Pb; [by rewrite <- !app_assoc|].
      fold (absent rbrace (T ++ SUPER ++ b2 ++ SUPER)).
      by rewrite !absent_app, A2, HT. }
    assert (startswith SUPER (drop (length (T ++ SUPER ++ b2)) B) = true) as Hs.
    { rewrite EB', drop_app_length. apply startswith_app. }
    rewrite F2 in Hs; [done| |].
    + rewrite !length_app, Lk. assert (length SUPER = 8) as -> by done. lia.
    + rewrite EB'. rewrite !length_app. lia.
Qed.

Lemma ctor_prolog_at m post : ctor_prolog m → ctor_at (m ++ post) = true.
Proof.
  intros (p & w & b & -> & Hp & Hw & Hb). unfold ctor_at.
  rewrite <- !app_assoc. rewrite startswith_app, drop_app_length. simpl.
  rewrite gapP_skip by done. simpl. rewrite <- app_assoc. simpl.
  rewrite gapW_spaces by done. rewrite <- app_assoc.
  apply gapB_add; [done|]. destruct post; done.
Qed.

Lemma ctor_at_prolog s :
  ctor_at s = true → ∃ m post, s = m ++ post ∧ ctor_prolog m.
Proof.
  intros H. destruct (ctor_match s) as [m|] eqn:E.
  - apply ctor_match_Some in E as (p & w & b & post & E & Em & Hp & Hw & Hb & _).
    exists m, post. split; [done|]. by exists p, w, b.
  - apply ctor_match_None in E. congruence.
Qed.

Lemma has_ctor_iff s : has_ctor_b s = true ↔ has_ctor s.
Proof.
  split.
  - induction s as [|c s IH]; cbn [has_ctor_b]; intros H.
    + rewrite orb_false_r in H. apply ctor_at_prolog in H as (m & post & E & Hm).
      by exists [], m, post.
    + apply orb_true_iff in H as [H|H].
      * apply ctor_at_prolog in H as (m & post & E & Hm). by exists [], m, post.
      * destruct (IH H) as (pre & m & post & -> & Hm).
        by exists (c :: pre), m, post.
  - intros (pre & m & post & -> & Hm). apply has_ctor_b_add.
    pose proof (ctor_prolog_at m post Hm) as H.
    destruct (m ++ post); cbn [has_ctor_b]; by rewrite H.
Qed.

(** [re.search] returns the match at the leftmost index that has one. *)
Lemma ctor_search_from_Some pos s i m :
  ctor_search_from pos s = Some (i, m) →
  ∃ k, i = pos + k ∧ k ≤ length s ∧ ctor_match (drop k s) = Some m ∧
       ∀ j, j < k → ctor_match (drop j s) = None.
Proof.
  revert pos. induction s as [|c s IH]; intros pos; cbn [ctor_search_from].
  - destruct (ctor_match []) eqn:E; [|done]. intros [= <- <-].
    exists 0. repeat split; [lia|done|done|lia].
  - destruct (ctor_match (c :: s)) eqn:E.
    + intros [= <- <-]. exists 0. repeat split; [lia|simpl; lia|done|lia].
    + intros H. apply IH in H as (k & -> & Hk & Hm & Hlt).
      exists (S k). repeat split; [lia|simpl; lia|done|].
      intros [|j] Hj; [done|]. cbn [drop]. apply Hlt. lia.
Qed.

Lemma ctor_search_from_None pos s :
  ctor_search_from pos s = None ↔ has_ctor_b s = false.
Proof.
  revert pos. induction s as [|c s IH]; intros pos;
    cbn [ctor_search_from has_ctor_b].
  - rewrite orb_false_r, <- ctor_match_None. by destruct (ctor_match []).
  - rewrite orb_false_iff, <- ctor_match_None, <- (IH (S pos)).
    destruct (ctor_match (c :: s)); [|by split; [split|intros [_ ?]]].
    split; [done|]. by intros [? _].
Qed.

Lemma ctor_search_None s : ctor_search s = None ↔ ¬ has_ctor s.
Proof.
  unfold ctor_search. rewrite ctor_search_from_None, <- has_ctor_iff.
  by destruct (has_ctor_b s).
Qed.

(** What [re.search] finds, and where [replace(old_constructor, ..., 1)]
    then finds that text: at the very same index. *)
Lemma ctor_search_Some s i m :
  ctor_search s = Some (i, m) →
  find m s = Some i ∧ ctor_match (drop i s) = Some m ∧
  (∀ j, j < i → ctor_match (drop j s) = None) ∧ ctor_prolog m.
Proof.
  intros H. apply ctor_search_from_Some in H as (k & -> & Hk & Hm & Hlt).
  simpl. pose proof Hm as Hm'.
  apply ctor_match_Some in Hm' as (p & w & b & post & E & Em & Hp & Hw & Hb & _).
  assert (ctor_prolog m) as Hpro by (by exists p, w, b).
  repeat split; try done.
  apply find_Some. repeat split; [done| |].
  - rewrite E. apply startswith_app.
  - intros j Hj. destruct (startswith m (drop j s)) eqn:Es; [|done].
    apply startswith_iff in Es as [r Er]. specialize (Hlt j Hj).
    apply ctor_match_None in Hlt. by rewrite Er, ctor_prolog_at in Hlt.
Qed.

(** ** What the import pattern matches *)

Lemma import_match_Some s m rest :
  import_match s = Some (m, rest) → s = m ++ rest ∧ import_stmt m.
Proof.
  unfold import_match. destruct (startswith IMPORT s) eqn:E1; [|done].
  apply startswith_inv in E1.
  pose proof (span_app (not_char semicolon) (drop (length IMPORT) s)) as Ep.
  pose proof (span_all (not_char semicolon) (drop (length IMPORT) s)) as Hp.
  pose proof (span_stop (not_char semicolon) (drop (length IMPORT) s)) as Sp.
  destruct (span (not_char semicolon) (drop (length IMPORT) s))
    as [[|x run] [|c r]]; try done. cbn [fst snd] in Ep, Hp, Sp.
  specialize (Sp c r eq_refl). apply not_char_false in Sp as ->.
  intros Hm.
  assert (m = IMPORT ++ (x :: run) ++ [semicolon]) as -> by congruence.
  assert (rest = r) as -> by congruence. split.
  - rewrite E1 at 1. rewrite <- Ep. by rewrite <- !app_assoc.
  - by exists (x :: run).
Qed.

Lemma import_match_stmt m rest :
  import_stmt m → import_match (m ++ rest) = Some (m, rest).
Proof.
  intros (run & -> & Hne & Hrun). unfold import_match.
  rewrite <- !app_assoc, startswith_app, drop_app_length. cbn [app].
  rewrite (span_unique (not_char semicolon) run semicolon rest Hrun eq_refl).
  by destruct run.
Qed.

Lemma import_finditer_aux_skip k pos s :
  import_finditer_aux k pos s = import_finditer_aux 0 (pos + k) (drop k s).
Proof.
  revert k pos. induction s as [|c s IH]; intros [|k] pos;
    cbn [import_finditer_aux drop]; try done.
  - by rewrite Nat.add_0_r.
  - rewrite IH. by rewrite Nat.add_succ_r.
Qed.

(** Each element of the scan is a match of the pattern at its index. *)
Lemma import_finditer_elem n s pos i m :
  length s ≤ n → (i, m) ∈ import_finditer_aux 0 pos s →
  ∃ k rest, i = pos + k ∧ import_match (drop k s) = Some (m, rest).
Proof.
  revert s pos. induction n as [|n IH]; intros [|c t] pos Hn;
    cbn [import_finditer_aux]; try (by intros ?%elem_of_nil).
  { simpl in Hn. lia. }
  destruct (import_match (c :: t)) as [[m0 rest0]|] eqn:E.
  - intros [[= -> ->]|Hin]%elem_of_cons.
    + exists 0, rest0. by rewrite Nat.add_0_r.
    + rewrite import_finditer_aux_skip in Hin.
      apply IH in Hin as (k & rest & -> & Hk).
      * exists (S (length m0 - 1 + k)), rest. split; [lia|].
        cbn [drop]. by rewrite <- drop_drop.
      * rewrite length_drop. simpl in Hn. lia.
  - intros Hin. apply IH in Hin as (k & rest & -> & Hk).
    + exists (S k), rest. split; [lia|done].
    + simpl in Hn. lia.
Qed.

Lemma import_stmt_nonempty m : import_stmt m → m ≠ [].
Proof.
  intros (run & -> & _) H. apply (f_equal length) in H.
  rewrite length_app in H. change (length IMPORT) with 6 in H. simpl in H. lia.
Qed.

(** The first element of the scan is the leftmost match, and the scan goes
    on behind it. *)
Lemma import_finditer_cons s pos i m L :
  import_finditer_aux 0 pos s = (i, m) :: L →
  ∃ k rest, i = pos + k ∧ k ≤ length s ∧
            import_match (drop k s) = Some (m, rest) ∧
            (∀ j, j < k → import_match (drop j s) = None) ∧
            L = import_finditer_aux 0 (i + length m) rest.
Proof.
  revert pos. induction s as [|c t IH]; intros pos;
    cbn [import_finditer_aux]; [done|].
  destruct (import_match (c :: t)) as [[m0 rest0]|] eqn:E.
  - intros H. assert (i = pos ∧ m = m0 ∧
      L = import_finditer_aux (length m0 - 1) (S pos) t) as (-> & -> & ->)
      by (split; [|split]; congruence). clear H.
    exists 0, rest0. repeat split; [lia|lia|done|lia|].
    rewrite import_finditer_aux_skip.
    pose proof E as [Es Hm]%import_match_Some.
    apply import_stmt_nonempty in Hm.
    destruct m0 as [|x m0]; [done|]. cbn [app] in Es. injection Es as -> ->.
    cbn [length]. rewrite Nat.sub_succ, Nat.sub_0_r, drop_app_length.
    f_equal. lia.
  - intros H. apply IH in H as (k & rest & -> & Hk & Hm & Hlt & HL).
    exists (S k), rest. repeat split; [lia|simpl; lia|done| |done].
    intros [|j] Hj; [done|]. cbn [drop]. apply Hlt. lia.
Qed.


(** An empty scan: the pattern matches nowhere. *)
Lemma import_finditer_nil s pos :
  import_finditer_aux 0 pos s = [] ↔ ∀ j, import_match (drop j s) = None.
Proof.
  revert pos. induction s as [|c t IH]; intros pos; cbn [import_finditer_aux].
  - split; [|done]. intros _ j. by rewrite drop_nil.
  - destruct (import_match (c :: t)) as [[m0 rest0]|] eqn:E.
    + split; [done|]. intros H. specialize (H 0). simpl in H. congruence.
    + rewrite (IH (S pos)). split.
      * intros H [|j]; [done|]. apply H.
      * intros H j. apply (H (S j)).
Qed.

Lemma import_findall_nil s : import_findall s = [] ↔ ¬ has_import s.
Proof.
  unfold import_findall, import_finditer, has_import.
  assert ((import_finditer_aux 0 0 s).*2 = [] ↔ import_finditer_aux 0 0 s = [])
    as -> by (split; [apply fmap_nil_inv|by intros ->]).
  rewrite import_finditer_nil. split.
  - intros H (pre & m & post & -> & Hm). specialize (H (length pre)).
    by rewrite drop_app_length, import_match_stmt in H.
  - intros H j. destruct (import_match (drop j s)) as [[m rest]|] eqn:E; [|done].
    exfalso. apply H. apply import_match_Some in E as [E Hm].
    exists (take j s), m, rest. split; [|done]. by rewrite <- E, take_drop.
Qed.

Lemma import_findall_elem s m :
  m ∈ import_findall s → import_stmt m ∧ contains m s = true.
Proof.
  unfold import_findall, import_finditer.
  intros ([i m'] & -> & Hin)%list_elem_of_fmap. simpl.
  apply (import_finditer_elem (length s)) in Hin as (k & rest & _ & Hk); [|done].
  apply import_match_Some in Hk as [E Hm]. split; [done|].
  apply contains_iff. exists (take k s), rest. by rewrite <- E, take_drop.
Qed.

(** When the pattern matches at one place of the document only, the scan
    finds exactly that match. *)
Lemma import_scan_unique D pre m post :
  D = pre ++ m ++ post → import_stmt m →
  (∀ pre' m' post',
     D = pre' ++ m' ++ post' → import_stmt m' → length pre' = length pre) →
  import_finditer D = [(length pre, m)].
Proof.
  intros ED Hm Huniq. unfold import_finditer.
  destruct (import_finditer_aux 0 0 D) as [|[i m1] L] eqn:EF.
  { pose proof (proj1 (import_finditer_nil D 0) EF (length pre)) as H.
    by rewrite ED, drop_app_length, import_match_stmt in H. }
  apply import_finditer_cons in EF as (k & rest & -> & Hk & Hk' & _ & HL).
  cbn [Nat.add] in *. pose proof Hk' as [Ek Hm1]%import_match_Some.
  assert (k = length pre) as ->.
  { rewrite <- (Huniq (take k D) m1 rest); [|by rewrite <- Ek, take_drop|done].
    rewrite length_take. lia. }
  rewrite ED, drop_app_length, import_match_stmt in Hk' by done.
  assert (m1 = m ∧ rest = post) as [-> ->] by (split; congruence).
  f_equal. destruct L as [|[i2 m2] L]; [done|]. exfalso. symmetry in HL.
  apply import_finditer_cons in HL as (k2 & rest2 & _ & _ & H2 & _).
  apply import_match_Some in H2 as [E2 Hm2].
  specialize (Huniq (pre ++ m ++ take k2 post) m2 rest2).
  rewrite !length_app in Huniq. apply import_stmt_nonempty in Hm.
  assert (length m ≠ 0) as Hlen by (by destruct m).
  enough (length pre + (length m + length (take k2 post)) = length pre) by lia.
  apply Huniq; [|done]. rewrite ED, <- !app_assoc. do 2 f_equal.
  by rewrite <- E2, take_drop.
Qed.

Lemma import_stmt_last m : import_stmt m → ∃ h, m = h ++ [semicolon].
Proof. intros (run & -> & _). exists (IMPORT ++ run). by rewrite <- app_assoc. Qed.

Lemma ctor_prolog_last m : ctor_prolog m → ∃ h, m = h ++ SUPER.
Proof.
  intros (p & w & b & -> & _). exists (CTOR ++ p ++ rparen :: w ++ lbrace :: b).
  rewrite <- !app_assoc. cbn [app]. by rewrite <- !app_assoc.
Qed.

(** ** The patterns, run by the backtracking matcher *)

Lemma run_word L cont s :
  run (word L) cont s =
  if startswith L s then cont (drop (length L) s) else None.
Proof.
  revert s. induction L as [|a L IH]; intros s; [done|].
  cbn [word fold_right run]. fold (word L). destruct s as [|x t]; [done|].
  cbn [in_cls startswith length drop]. rewrite N.eqb_sym.
  destruct (a =? x)%N; [apply IH|done].
Qed.

(** A repetition in front of something that cannot start with a character
    of the class takes all it can get. *)
Lemma star_determined k cont s :
  (∀ x t, in_cls k x = true → cont (x :: t) = None) →
  star k cont s = cont (span (in_cls k) s).2.
Proof.
  intros Hk. induction s as [|x t IH]; [done|]. cbn [star span].
  destruct (in_cls k x) eqn:E; [|done]. rewrite IH, (Hk x t E).
  destruct (span (in_cls k) t) as [a b]. cbn [snd]. by destruct (cont b).
Qed.

Lemma startswith_span_class f L s :
  forallb f L = true → startswith L (span f s).1 = startswith L s.
Proof.
  revert s. induction L as [|a L IH]; intros s HL; [by rewrite !startswith_nil|].
  cbn [forallb] in HL. apply andb_true_iff in HL as [Ha HL].
  destruct s as [|y t]; [done|]. cbn [span]. destruct (f y) eqn:Ey.
  - specialize (IH t HL). destruct (span f t) as [b r]. cbn [fst] in *.
    cbn [startswith]. by rewrite IH.
  - cbn [fst startswith]. destruct (N.eqb_spec a y) as [->|]; [congruence|done].
Qed.

(** A repetition in front of a literal text of the same class backtracks to
    the last occurrence of the text in what it can take. *)
Lemma star_word k L s :
  L ≠ [] → forallb (in_cls k) L = true →
  star k (run (word L) Some) s =
  (λ j, drop (j + length L) s) <$> rfind L (span (in_cls k) s).1.
Proof.
  intros HL Hk. induction s as [|x t IH].
  - cbn [star span fst rfind]. rewrite run_word.
    destruct L; [done|]. done.
  - cbn [star span]. destruct (in_cls k x) eqn:E.
    + rewrite IH. pose proof (startswith_span_class (in_cls k) L (x :: t) Hk) as Hs.
      cbn [span] in Hs. rewrite E in Hs.
      destruct (span (in_cls k) t) as [b r]. cbn [fst] in *. cbn [rfind].
      destruct (rfind L b) as [j|]; [done|]. cbn [fmap option_fmap option_map].
      rewrite run_word, Hs. by destruct (startswith L (x :: t)).
    + cbn [fst rfind]. rewrite run_word.
      destruct L as [|a L]; [done|]. cbn [forallb] in Hk.
      apply andb_true_iff in Hk as [Ha _]. cbn [startswith].
      destruct (N.eqb_spec a x) as [->|]; [congruence|done].
Qed.

(** The closed form of the import pattern is what the matcher computes. *)
Lemma import_match_regex s :
  import_match s =
  (λ rest, (matched s rest, rest)) <$> run import_pattern Some s.
Proof.
  unfold import_match, import_pattern. cbn [run]. rewrite run_word.
  fold IMPORT. destruct (startswith IMPORT s) eqn:E1; [|done].
  apply startswith_inv in E1. remember (drop (length IMPORT) s) as s1 eqn:Es1.
  destruct s1 as [|x t]; [done|]. cbn [span in_cls].
  destruct (not_char semicolon x) eqn:Ex; [|done].
  rewrite star_determined.
  2: { intros y t' Hy. cbn [in_cls] in *. apply not_char_true in Hy.
       by apply N.eqb_neq in Hy as ->. }
  change (in_cls (Except semicolon)) with (not_char semicolon).
  pose proof (span_app (not_char semicolon) t) as Ep.
  pose proof (span_stop (not_char semicolon) t) as Sp.
  destruct (span (not_char semicolon) t) as [run0 [|c rest]]; [done|].
  cbn [fst snd] in *. specialize (Sp c rest eq_refl).
  apply not_char_false in Sp as ->. cbn [in_cls]. rewrite N.eqb_refl.
  cbn [fmap option_fmap option_map]. do 2 f_equal. unfold matched.
  assert (s = (IMPORT ++ (x :: run0) ++ [semicolon]) ++ rest) as Es.
  { rewrite E1 at 1. rewrite <- Ep. by reassoc. }
  rewrite Es at 2. symmetry. apply take_app_length'.
  rewrite Es at 1. rewrite length_app. lia.
Qed.

(** The closed form of the constructor pattern is what the matcher
    computes. *)
Lemma ctor_match_regex s :
  ctor_match s = matched s <$> run constructor_pattern Some s.
Proof.
  unfold ctor_match, constructor_pattern. cbn [run]. rewrite run_word.
  fold CTOR. fold SUPER. destruct (startswith CTOR s) eqn:E1; [|done].
  apply startswith_inv in E1. remember (drop (length CTOR) s) as s1 eqn:Es1.
  rewrite star_determined.
  2: { intros y t' Hy. cbn [in_cls] in *. apply not_char_true in Hy.
       by apply N.eqb_neq in Hy as ->. }
  change (in_cls (Except rparen)) with (not_char rparen).
  pose proof (span_app (not_char rparen) s1) as Ep.
  pose proof (span_stop (not_char rparen) s1) as Sp.
  destruct (span (not_char rparen) s1) as [p [|c1 a2]]; [done|].
  cbn [fst snd] in *. specialize (Sp c1 a2 eq_refl).
  apply not_char_false in Sp as ->. cbn [in_cls]. rewrite N.eqb_refl.
  rewrite star_determined.
  2: { intros y t' Hy. cbn [in_cls] in *. by rewrite is_space_not_lbrace. }
  change (in_cls WhiteSpace) with is_space.
  pose proof (span_app is_space a2) as Ew.
  destruct (span is_space a2) as [w [|c a4]]; [done|]. cbn [fst snd] in *.
  destruct (N.eqb_spec c lbrace) as [->|]; [|done].
  rewrite star_word by done.
  change (in_cls (Except rbrace)) with (not_char rbrace).
  pose proof (span_app (not_char rbrace) a4) as Eb.
  destruct (span (not_char rbrace) a4) as [b r]. cbn [fst snd] in *.
  destruct (rfind SUPER b) as [j|] eqn:F; [|done].
  cbn [fmap option_fmap option_map]. f_equal. unfold matched.
  apply rfind_Some in F as (Hj & F & _). apply startswith_inv in F.
  rewrite drop_drop in F.
  assert (a4 = (take j b ++ SUPER) ++ drop (j + length SUPER) a4) as E4.
  { rewrite <- Eb at 1. rewrite <- (take_drop j b) at 1. rewrite F.
    rewrite <- Eb. rewrite drop_app_le.
    - by reassoc.
    - rewrite <- (take_drop j b), F, !length_app, length_take. lia. }
  assert (s = (CTOR ++ p ++ [rparen] ++ w ++ [lbrace] ++ take j b ++ SUPER) ++
              drop (j + length SUPER) a4) as Es.
  { rewrite E1 at 1. rewrite <- Ep, <- Ew. rewrite E4 at 1. by reassoc. }
  rewrite Es at 2. symmetry. apply take_app_length'.
  rewrite Es at 1. rewrite length_app. lia.
Qed.

(** ** The three edits, case by case *)

Lemma insert_import_cases D :
  (contains IMPORT_MARK D = true ∧ insert_import D = D) ∨
  (contains IMPORT_MARK D = false ∧ import_findall D = [] ∧
   insert_import D = IMPORT_LINE ++ NL :: D) ∨
  (contains IMPORT_MARK D = false ∧
   ∃ u m v, last (import_findall D) = Some m ∧ import_stmt m ∧
            D = u ++ m ++ v ∧ find m D = Some (length u) ∧
            insert_import D = u ++ (m ++ NL :: IMPORT_LINE) ++ v).
Proof.
  unfold insert_import. destruct (contains IMPORT_MARK D) eqn:EM; [by left|].
  right. destruct (last (import_findall D)) as [m|] eqn:EL.
  - right. split; [done|].
    assert (m ∈ import_findall D) as Hin.
    { apply last_Some in EL as [l' ->]. apply elem_of_app. right.
      apply list_elem_of_here. }
    apply import_findall_elem in Hin as [Hm Hc].
    destruct (replace_first_spec m (m ++ NL :: IMPORT_LINE) D Hc)
      as (u & v & E & F & R).
    by exists u, m, v.
  - left. apply last_None in EL. done.
Qed.

Lemma insert_logger_cases C D :
  (contains LOGGER_MARK D = true ∧ insert_logger C D = D) ∨
  (contains LOGGER_MARK D = false ∧ ctor_search D = None ∧
   insert_logger C D = D) ∨
  (contains LOGGER_MARK D = false ∧
   ∃ i m, ctor_search D = Some (i, m) ∧ ctor_prolog m ∧ i ≤ length D ∧
          D = take i D ++ m ++ drop (i + length m) D ∧
          insert_logger C D =
            take i D ++ (m ++ logger_line C) ++ drop (i + length m) D).
Proof.
  unfold insert_logger. destruct (contains LOGGER_MARK D) eqn:EM; [by left|].
  right. destruct (ctor_search D) as [[i m]|] eqn:ES.
  - right. split; [done|]. exists i, m.
    apply ctor_search_Some in ES as (F & _ & _ & Hm).
    destruct (replace_first_at m (m ++ logger_line C) D i F) as [E R].
    apply find_Some in F as (Hi & _). done.
  - by left.
Qed.

(** ** Call-site substitution *)

Lemma opener_at_app rs1 rs2 s :
  opener_at (rs1 ++ rs2) s = opener_at rs1 s || opener_at rs2 s.
Proof. apply existsb_app. Qed.

Lemma opener_at_elem rs o n s :
  (o, n) ∈ rs → startswith o s = true → opener_at rs s = true.
Proof.
  intros Hin Hs. unfold opener_at. apply existsb_exists. exists (o, n).
  split; [by apply list_elem_of_In|done].
Qed.

(** Running one more [re.sub] after a strict rewriting is a strict
    rewriting with one more rule, when the new pattern and the texts of the
    earlier rules cannot overlap. *)
Lemma rewr_compose rs old new X Y Z :
  old ≠ [] →
  forallb (λ pr, compose_safe old pr.1 pr.2) rs = true →
  rewr true rs X Y → rewr true [(old, new)] Y Z →
  rewr true (rs ++ [(old, new)]) X Z.
Proof.
  intros Hold Hc. remember (length Y) as k eqn:Hk. revert X Y Z Hk.
  induction k as [k IH] using lt_wf_ind. intros X Y Z Hk HXY HYZ.
  assert (∀ o n, (o, n) ∈ rs →
            n ≠ [] ∧ clash_free old o = true ∧ clash_free old n = true ∧
            clash_free n old = true) as Hrule.
  { intros o n Hin.
    pose proof (rules_forall (compose_safe old) rs o n Hc Hin) as H.
    unfold compose_safe in H. rewrite !andb_true_iff in H.
    destruct H as (((H1 & H2) & H3) & H4). repeat split; try done.
    intros ->. done. }
  pose proof HXY as HXY'.
  apply rewr_inv in HXY' as [[-> ->]|[(c & X' & Y' & -> & -> & Hs & H)|
                                    (o & n & X' & Y' & Hin & -> & -> & H)]].
  - apply rewr_inv in HYZ as [[_ ->]|[(c & ? & ? & ? & _)|
                                     (o & n & ? & ? & Hin & E & _)]].
    + constructor.
    + done.
    + apply list_elem_of_singleton in Hin as [= -> ->]. by destruct old.
  - pose proof HYZ as HYZ'.
    apply rewr_inv in HYZ' as [[? _]|[(c' & Y0 & Z' & E & -> & Hs' & H')|
                                     (o & n & Y'' & Z'' & Hin & E & -> & H')]].
    + done.
    + injection E as <- <-. apply rewr_keep.
      * intros _. rewrite opener_at_app, (Hs eq_refl). simpl.
        rewrite orb_false_r. destruct (startswith old (c :: X')) eqn:Eo; [|done].
        specialize (Hs' eq_refl). unfold opener_at in Hs'. simpl in Hs'.
        rewrite orb_false_r in Hs'. rewrite <- Hs'. symmetry.
        apply (rewr_startswith true rs old (c :: X')); [|done|done].
        revert Hc. apply (rules_impl (compose_safe old) (lit_safe old)).
        intros o n Ho. unfold compose_safe in Ho.
        rewrite !andb_true_iff in Ho. apply clash_free_lit_safe. tauto.
      * apply (IH (length Y')) with (Y := Y'); [|done|done|done].
        rewrite Hk. simpl. lia.
    + apply list_elem_of_singleton in Hin as [= -> ->]. rewrite E in HXY.
      apply rewr_literal_bwd in HXY as (X'' & -> & HXY).
      * apply rewr_repl; [apply elem_of_app; right; apply list_elem_of_here|].
        apply (IH (length Y'')) with (Y := Y''); [|done|done|done].
        rewrite Hk, E, length_app. destruct old; [done|]. simpl. lia.
      * revert Hc.
        apply (rules_impl (compose_safe old) (λ _ n, clash_free old n)).
        intros o n Ho. unfold compose_safe in Ho.
        rewrite !andb_true_iff in Ho. tauto.
  - destruct (Hrule o n Hin) as (Hn & _ & _ & Hno).
    apply rewr_literal_fwd in HYZ as (Z' & -> & HYZ).
    + apply rewr_repl; [apply elem_of_app; by left|].
      apply (IH (length Y')) with (Y := Y'); [|done|done|done].
      rewrite Hk, length_app. destruct n; [done|]. simpl. lia.
    + simpl. by rewrite Hno.
Qed.

(** After a strict rewriting no left-hand side occurs any more, when the
    texts of the rules cannot overlap. *)
Lemma rewr_strict_clean rs o n0 X Y :
  o ≠ [] → (o, n0) ∈ rs →
  forallb (λ pr, clean_safe o pr.1 pr.2) rs = true →
  rewr true rs X Y → contains o Y = false.
Proof.
  intros Hne Ho Hc. induction 1 as [|c X Y Hs H IH|o' n X Y Hin H IH].
  - by apply contains_nil_r.
  - cbn [contains]. rewrite IH, orb_false_r.
    destruct (startswith o (c :: Y)) eqn:E; [|done].
    rewrite <- (Hs eq_refl). symmetry. apply (opener_at_elem rs o n0); [done|].
    apply (rewr_startswith false (swap_rules rs) o (c :: Y)); [| |done].
    + unfold swap_rules. rewrite forallb_forall. intros [a b] Hab.
      apply list_elem_of_In, list_elem_of_fmap in Hab
        as ([n' o''] & [= -> ->] & Hin).
      pose proof (rules_forall (clean_safe o) rs _ _ Hc Hin) as Hx.
      unfold clean_safe in Hx. by apply andb_true_iff in Hx as [Hx _].
    + apply rewr_swap with (st := true). by constructor.
  - destruct (contains o (n ++ Y)) eqn:E; [|done].
    apply contains_skip in E; [congruence|].
    pose proof (rules_forall (clean_safe o) rs _ _ Hc Hin) as Hx.
    unfold clean_safe in Hx. by apply andb_true_iff in Hx as [_ Hx].
Qed.

Lemma rewr_strict_nil X : rewr true [] X X.
Proof. induction X; by constructor. Qed.

Lemma length_nonzero (o : str) : negb (Nat.eqb (length o) 0) = true → o ≠ [].
Proof. by destruct o. Qed.

(** A loop of [re.sub] calls over rules that do not interfere replaces every
    occurrence of every pattern and nothing else. *)
Lemma fold_re_sub_rewr earlier later X Y :
  compose_ok earlier later = true → rewr true earlier X Y →
  rewr true (earlier ++ later) X
    (fold_left (λ c pr, re_sub pr.1 pr.2 c) later Y).
Proof.
  revert earlier Y. induction later as [|[o n] t IH]; intros earlier Y Hok H.
  - by rewrite app_nil_r.
  - cbn [compose_ok fst snd] in Hok. rewrite !andb_true_iff in Hok.
    destruct Hok as [[Ho Hc] Hok]. apply length_nonzero in Ho.
    cbn [fold_left fst snd].
    replace (earlier ++ (o, n) :: t) with ((earlier ++ [(o, n)]) ++ t)
      by (by rewrite <- app_assoc).
    apply IH; [done|]. apply (rewr_compose earlier o n X Y); try done.
    by apply re_sub_rewr.
Qed.

Lemma fold_re_sub_absent rs Y :
  (∀ o n, (o, n) ∈ rs → contains o Y = false) →
  fold_left (λ c pr, re_sub pr.1 pr.2 c) rs Y = Y.
Proof.
  induction rs as [|[o n] rs IH]; intros H; [done|]. cbn [fold_left fst snd].
  rewrite re_sub_absent by (apply (H o n), list_elem_of_here).
  apply IH. intros o' n' Hin. apply (H o' n'). by apply list_elem_of_further.
Qed.

Lemma replacements_compose_ok : compose_ok [] replacements = true.
Proof. vm_compute. reflexivity. Qed.

Lemma replacements_clean : rules_clean replacements = true.
Proof. vm_compute. reflexivity. Qed.

Lemma call_site_rewr D : rewr true replacements D (call_site_substitution D).
Proof.
  apply (fold_re_sub_rewr [] replacements D D replacements_compose_ok).
  apply rewr_strict_nil.
Qed.

Lemma call_site_clean D o n :
  (o, n) ∈ replacements → contains o (call_site_substitution D) = false.
Proof.
  intros Hin. pose proof replacements_clean as Hc. unfold rules_clean in Hc.
  rewrite forallb_forall in Hc. specialize (Hc (o, n)).
  rewrite andb_true_iff in Hc. destruct Hc as [Ho Hc]; [by apply list_elem_of_In|].
  apply (rewr_strict_clean replacements o n D); try done.
  - by apply length_nonzero.
  - apply call_site_rewr.
Qed.

(** The loop of call-site substitutions has nothing left to do on its own
    result. *)
Lemma call_site_idempotent D :
  call_site_substitution (call_site_substitution D) = call_site_substitution D.
Proof.
  unfold call_site_substitution at 1. apply fold_re_sub_absent.
  intros o n Hin. by apply (call_site_clean D o n).
Qed.

Lemma call_site_contains p D :
  forallb (λ pr, occ_safe p pr.1 pr.2) replacements = true →
  contains p D = true → contains p (call_site_substitution D) = true.
Proof.
  intros Hc. apply (rewr_contains true replacements p D _ Hc), call_site_rewr.
Qed.

Lemma call_site_contains_inv p D :
  forallb (λ pr, occ_safe p pr.1 pr.2) (swap_rules replacements) = true →
  contains p (call_site_substitution D) = true → contains p D = true.
Proof.
  intros Hc. apply (rewr_contains false (swap_rules replacements) p _ _ Hc).
  apply rewr_swap with (st := true), call_site_rewr.
Qed.

Lemma call_site_has_ctor_inv D :
  has_ctor_b (call_site_substitution D) = true → has_ctor_b D = true.
Proof.
  apply (rewr_has_ctor false (swap_rules replacements)).
  - vm_compute. reflexivity.
  - apply rewr_swap with (st := true), call_site_rewr.
Qed.

Lemma str_eqb_eq a b : str_eqb a b = true → a = b.
Proof.
  unfold str_eqb. rewrite andb_true_iff, Nat.eqb_eq. intros [Hl Hs].
  apply startswith_iff in Hs as [r ->]. rewrite length_app in Hl.
  destruct r; [by rewrite app_nil_r|]. simpl in Hl. lia.
Qed.

(** A strict rewriting has one result only. *)
Lemma rewr_strict_functional rs X Y1 Y2 :
  rules_distinct rs = true →
  rewr true rs X Y1 → rewr true rs X Y2 → Y1 = Y2.
Proof.
  intros Hd. remember (length X) as k eqn:Hk. revert X Y1 Y2 Hk.
  induction k as [k IH] using lt_wf_ind. intros X Y1 Y2 Hk H1 H2.
  assert (∀ o1 n1 o2 n2 s, (o1, n1) ∈ rs → (o2, n2) ∈ rs →
            startswith o1 s = true → startswith o2 s = true →
            o1 ≠ [] ∧ o1 = o2 ∧ n1 = n2) as Hsame.
  { intros o1 n1 o2 n2 s Hi1 Hi2 Hs1 Hs2. unfold rules_distinct in Hd.
    rewrite forallb_forall in Hd. specialize (Hd (o1, n1)).
    rewrite andb_true_iff in Hd.
    destruct Hd as [Hne Hd]; [by apply list_elem_of_In|].
    rewrite forallb_forall in Hd. specialize (Hd (o2, n2)). cbn [fst snd] in *.
    rewrite (prefixes_compatible o1 o2 s Hs1 Hs2) in Hd.
    rewrite orb_false_r, andb_true_iff in Hd.
    destruct Hd as [E1 E2]; [by apply list_elem_of_In|].
    apply str_eqb_eq in E1, E2. split; [by apply length_nonzero|done]. }
  apply rewr_inv in H1 as [[-> ->]|[(c & X1 & Z1 & -> & -> & Hs1 & H1)|
                                   (o1 & n1 & X1 & Z1 & Hi1 & -> & -> & H1)]].
  - apply rewr_inv in H2 as [[_ ->]|[(c & ? & ? & ? & _)|
                                    (o2 & n2 & X2 & Z2 & Hi2 & E & -> & H2)]];
      [done|done|].
    symmetry in E. apply app_eq_nil in E as [-> ->].
    by destruct (Hsame [] n2 [] n2 [] Hi2 Hi2 eq_refl eq_refl) as [? _].
  - apply rewr_inv in H2 as [[? _]|[(c' & X2 & Z2 & E & -> & Hs2 & H2)|
                                   (o2 & n2 & X2 & Z2 & Hi2 & E & -> & H2)]].
    + done.
    + injection E as <- <-. f_equal.
      apply (IH (length X1)) with (X := X1); [|done|done|done].
      rewrite Hk. simpl. lia.
    + exfalso. specialize (Hs1 eq_refl).
      rewrite (opener_at_elem rs o2 n2 (c :: X1)) in Hs1; [done|done|].
      rewrite E. apply startswith_app.
  - apply rewr_inv in H2 as [[E _]|[(c' & X2 & Z2 & E & -> & Hs2 & H2)|
                                   (o2 & n2 & X2 & Z2 & Hi2 & E & -> & H2)]].
    + apply app_eq_nil in E as [-> ->].
      by destruct (Hsame [] n1 [] n1 [] Hi1 Hi1 eq_refl eq_refl) as [? _].
    + exfalso. specialize (Hs2 eq_refl).
      rewrite (opener_at_elem rs o1 n1 (o1 ++ X1)) in Hs2; [done|done|].
      apply startswith_app.
    + destruct (Hsame o1 n1 o2 n2 (o1 ++ X1) Hi1 Hi2) as (Hne & <- & <-).
      * apply startswith_app.
      * rewrite E. apply startswith_app.
      * apply app_inv_head in E as <-. f_equal.
        apply (IH (length X1)) with (X := X1); [|done|done|done].
        rewrite Hk, length_app. destruct o1; [done|]. simpl. lia.
Qed.

(** The strict rewriting by the five rules describes the call-site
    substitution completely. *)
Lemma call_site_unique D Y :
  rewr true replacements D Y → Y = call_site_substitution D.
Proof.
  intros H. apply (rewr_strict_functional replacements D); [|done|].
  - vm_compute. reflexivity.
  - apply call_site_rewr.
Qed.

(** The text in front of a separator and the text behind it are rewritten
    independently. *)
Lemma re_sub_sep old new a c b :
  old ≠ [] → absent c old = true →
  re_sub old new (a ++ c :: b) = re_sub old new a ++ c :: re_sub old new b.
Proof.
  intros Ho Hc. remember (length a) as k eqn:Hk. revert a Hk.
  induction k as [k IH] using lt_wf_ind. intros [|x a] Hk.
  - cbn [app]. rewrite re_sub_miss; [done|].
    destruct old as [|y old]; [done|]. rewrite absent_cons in Hc.
    apply andb_true_iff in Hc as [Hy _]. apply not_char_true in Hy.
    by apply startswith_cons_false.
  - destruct (startswith old (x :: a)) eqn:E.
    + apply startswith_iff in E as [r E]. rewrite E, <- app_assoc.
      rewrite !re_sub_hit by done. rewrite <- app_assoc. f_equal.
      apply (IH (length r)); [|done]. rewrite Hk, E, length_app.
      destruct old; [done|]. simpl. lia.
    + change ((x :: a) ++ c :: b) with (x :: (a ++ c :: b)).
      rewrite re_sub_miss.
      * rewrite re_sub_miss by done. cbn [app]. f_equal.
        apply (IH (length a)); [|done]. rewrite Hk. simpl. lia.
      * change (x :: (a ++ c :: b)) with ((x :: a) ++ c :: b).
        by rewrite startswith_sep.
Qed.

Lemma fold_re_sub_sep rs a c b :
  forallb (λ pr, negb (Nat.eqb (length pr.1) 0) && absent c pr.1) rs = true →
  fold_left (λ c pr, re_sub pr.1 pr.2 c) rs (a ++ c :: b) =
  fold_left (λ c pr, re_sub pr.1 pr.2 c) rs a ++
  c :: fold_left (λ c pr, re_sub pr.1 pr.2 c) rs b.
Proof.
  revert a b. induction rs as [|[o n] rs IH]; intros a b H; [done|].
  cbn [forallb fst snd] in H. rewrite !andb_true_iff in H.
  destruct H as [[Ho Hc] H]. cbn [fold_left fst snd].
  rewrite re_sub_sep; [|by apply length_nonzero|done]. by apply IH.
Qed.

(** ** Text the call-site substitution cannot touch *)

Lemma clash_free_suffix o L a l :
  clash_free o L = true → o = a ++ l → l ≠ [] → compatible l L = false.
Proof.
  revert o. induction a as [|x a IH]; intros o Hc -> Hl.
  - destruct l as [|y l]; [done|]. simpl in Hc.
    apply andb_true_iff in Hc as [Hc _]. by apply negb_true_iff in Hc.
  - apply (IH (a ++ l)); [|done|done]. by apply clash_free_tail in Hc.
Qed.

Lemma re_sub_literal_head old new L B :
  clash_free L old = true →
  re_sub old new (L ++ B) = L ++ re_sub old new B.
Proof.
  induction L as [|a L IH]; intros Hc; [done|].
  change ((a :: L) ++ B) with (a :: (L ++ B)). rewrite re_sub_miss.
  - cbn [app]. f_equal. apply IH. by apply clash_free_tail in Hc.
  - destruct (startswith old (a :: L ++ B)) eqn:E; [|done]. exfalso.
    apply (clash_free_head (a :: L) old ((a :: L) ++ B)); try done.
    apply startswith_app.
Qed.

Lemma re_sub_literal old new A L B :
  old ≠ [] → clash_free L old = true → clash_free old L = true →
  re_sub old new (A ++ L ++ B) = re_sub old new A ++ L ++ re_sub old new B.
Proof.
  intros Ho H1 H2. remember (length A) as k eqn:Hk. revert A Hk.
  induction k as [k IH] using lt_wf_ind. intros [|c A] Hk.
  - cbn [app]. by apply re_sub_literal_head.
  - destruct (startswith old ((c :: A) ++ L ++ B)) eqn:E.
    + apply startswith_iff in E as [r E].
      destruct (app_eq_app _ _ _ _ E) as [l [[EA Er]|[Eo Er]]].
      * rewrite EA, <- app_assoc. rewrite !re_sub_hit by done.
        rewrite <- app_assoc. f_equal. apply (IH (length l)); [|done].
        rewrite Hk, EA, length_app. destruct old; [done|]. simpl. lia.
      * destruct l as [|y l].
        -- rewrite app_nil_r in Eo. cbn [app] in Er. subst r. rewrite <- Eo.
           rewrite re_sub_hit by done. rewrite re_sub_literal_head by done.
           assert (re_sub old new old = new) as ->; [|done].
           pose proof (re_sub_hit old new [] Ho) as Hh.
           by rewrite !app_nil_r in Hh.
        -- exfalso.
           pose proof (clash_free_suffix old L (c :: A) (y :: l) H2 Eo) as Hx.
           rewrite (prefixes_compatible (y :: l) L (L ++ B)) in Hx.
           ++ by specialize (Hx ltac:(done)).
           ++ rewrite Er. apply startswith_app.
           ++ apply startswith_app.
    + change ((c :: A) ++ L ++ B) with (c :: (A ++ L ++ B)) in *.
      rewrite re_sub_miss by done. rewrite re_sub_miss.
      * cbn [app]. f_equal. apply (IH (length A)); [|done]. rewrite Hk.
        simpl. lia.
      * destruct (startswith old (c :: A)) eqn:E'; [|done].
        change (c :: (A ++ L ++ B)) with ((c :: A) ++ L ++ B) in E.
        by rewrite (startswith_app_l _ _ _ E') in E.
Qed.

Lemma fold_re_sub_literal rs A L B :
  inert rs L = true →
  fold_left (λ c pr, re_sub pr.1 pr.2 c) rs (A ++ L ++ B) =
  fold_left (λ c pr, re_sub pr.1 pr.2 c) rs A ++ L ++
  fold_left (λ c pr, re_sub pr.1 pr.2 c) rs B.
Proof.
  revert A B. induction rs as [|[o n] rs IH]; intros A B H; [done|].
  unfold inert in H. cbn [forallb fst snd] in H. rewrite !andb_true_iff in H.
  destruct H as [[[Ho H1] H2] H]. cbn [fold_left fst snd].
  rewrite re_sub_literal; [|by apply length_nonzero|done|done]. by apply IH.
Qed.

(** The call-site substitution passes over a text no opener can overlap. *)
Lemma call_site_literal A L B :
  inert replacements L = true →
  call_site_substitution (A ++ L ++ B) =
  call_site_substitution A ++ L ++ call_site_substitution B.
Proof. apply fold_re_sub_literal. Qed.

(** ** Occurrences of the openers *)

Lemma startswith_app_split p u v :
  startswith p (u ++ v) = true →
  startswith p u = true ∨ ∃ y, p = u ++ y ∧ y ≠ [] ∧ startswith y v = true.
Proof.
  revert p. induction u as [|c u IH]; intros p H.
  - destruct p as [|a p]; [by left|]. right. by exists (a :: p).
  - destruct p as [|a p]; [by left|]. cbn [app startswith] in *.
    apply andb_true_iff in H as [Ha H]. apply N.eqb_eq in Ha as ->.
    destruct (IH p H) as [H'|(y & -> & Hy & Hs)].
    + left. by rewrite N.eqb_refl.
    + right. by exists y.
Qed.

(** Strict rewritings of two texts make one of the texts joined, where the
    second text starts with a character that only starts left-hand
    sides. *)
Lemma rewr_strict_app rs c X1 Y1 X2 Y2 :
  heads_only c rs = true →
  rewr true rs X1 Y1 → rewr true rs (c :: X2) Y2 →
  rewr true rs (X1 ++ c :: X2) (Y1 ++ Y2).
Proof.
  intros Hh H1 H2. induction H1 as [|a X Y Hs H IH|o n X Y Hin H IH].
  - done.
  - cbn [app]. constructor; [|done]. intros _. specialize (Hs eq_refl).
    destruct (opener_at rs (a :: X ++ c :: X2)) eqn:E; [|done]. exfalso.
    apply existsb_exists in E as ([o n] & Hin & Ho). cbn [fst] in Ho.
    apply list_elem_of_In in Hin.
    change (a :: X ++ c :: X2) with ((a :: X) ++ c :: X2) in Ho.
    apply startswith_app_split in Ho as [Ho|(y & -> & Hy & Ho)].
    + by rewrite (opener_at_elem rs o n (a :: X) Hin Ho) in Hs.
    + pose proof (rules_forall (λ o _, absent c (tail o)) rs _ n Hh Hin) as Ha.
      cbn [app tail] in Ha. rewrite absent_app in Ha.
      destruct y as [|b y]; [done|]. cbn [startswith] in Ho.
      apply andb_true_iff in Ho as [Hb _]. apply N.eqb_eq in Hb as ->.
      rewrite absent_cons in Ha. unfold not_char in Ha.
      rewrite N.eqb_refl in Ha. cbn in Ha. by rewrite andb_false_r in Ha.
  - rewrite <- !app_assoc. by constructor.
Qed.

(** An occurrence of a left-hand side is replaced by its right-hand side,
    whatever stands in front of it and behind it. *)
Lemma call_site_occurrence o n a b :
  (o, n) ∈ replacements →
  call_site_substitution (a ++ o ++ b) =
  call_site_substitution a ++ n ++ call_site_substitution b.
Proof.
  intros Hin. symmetry. apply call_site_unique.
  assert (∃ t, o = 99%N :: t) as [t ->].
  { pose proof (rules_forall (λ o _, startswith [99%N] o) replacements o n
                  eq_refl Hin) as H.
    destruct o as [|x t]; [done|]. cbn [startswith] in H.
    apply andb_true_iff in H as [H _]. apply N.eqb_eq in H as <-. by exists t. }
  cbn [app]. apply rewr_strict_app.
  - vm_compute. reflexivity.
  - apply call_site_rewr.
  - change (99%N :: t ++ b) with ((99%N :: t) ++ b).
    constructor; [done|apply call_site_rewr].
Qed.

(** A text without openers is left as it is. *)
Lemma call_site_frame D :
  no_opener D = true → call_site_substitution D = D.
Proof.
  intros H. apply fold_re_sub_absent. intros o n Hin.
  pose proof (rules_forall (λ o _, negb (contains o D)) replacements o n H Hin)
    as Hc.
  by apply negb_true_iff in Hc.
Qed.

(** ** The guards on a second run *)

Lemma SUPER_last : SUPER = lit "super()" ++ [semicolon].
Proof. reflexivity. Qed.

Lemma insert_import_marked D : contains IMPORT_MARK (insert_import D) = true.
Proof.
  destruct (insert_import_cases D)
    as [[H ->]|[(_ & _ & ->)|(_ & u & m & v & _ & _ & _ & _ & ->)]].
  - done.
  - by apply contains_app_l.
  - apply contains_app_r, contains_app_l, contains_app_r.
    by apply (contains_app_r _ [NL]).
Qed.

Lemma insert_import_fixed D :
  contains IMPORT_MARK D = true → insert_import D = D.
Proof. intros H. unfold insert_import. by rewrite H. Qed.

Lemma insert_logger_fixed C D :
  contains LOGGER_MARK D = true ∨ has_ctor_b D = false →
  insert_logger C D = D.
Proof.
  intros [H|H]; unfold insert_logger.
  - by rewrite H.
  - apply ctor_search_from_None with (pos := 0) in H. fold (ctor_search D) in H.
    rewrite H. by destruct (contains LOGGER_MARK D).
Qed.

(** Putting text behind a semicolon keeps every occurrence of a text
    that has no semicolon. *)
Lemma contains_insert_after_semicolon p h ins v :
  p ≠ [] → absent semicolon p = true →
  contains p ((h ++ [semicolon]) ++ v) = true →
  contains p ((h ++ [semicolon]) ++ ins ++ v) = true.
Proof.
  intros Hp Ha. rewrite <- !app_assoc. cbn [app].
  rewrite !contains_sep by done. intros [H|H]%orb_true_iff.
  - by rewrite H.
  - by rewrite (contains_app_r p ins v H), orb_true_r.
Qed.

Lemma insert_logger_keeps p C D :
  p ≠ [] → absent semicolon p = true →
  contains p D = true → contains p (insert_logger C D) = true.
Proof.
  intros Hp Ha H. destruct (insert_logger_cases C D)
    as [[_ ->]|[(_ & _ & ->)|(_ & i & m & _ & Hm & _ & E & ->)]]; try done.
  rewrite E in H. apply ctor_prolog_last in Hm as [h ->].
  rewrite SUPER_last in *.
  remember (drop (i + length (h ++ lit "super()" ++ [semicolon])) D) as v.
  remember (take i D) as u. clear E Hequ Heqv.
  replace (u ++ (h ++ lit "super()" ++ [semicolon]) ++ v)
    with (((u ++ h ++ lit "super()") ++ [semicolon]) ++ v) in H
    by (by rewrite <- !app_assoc).
  replace (u ++ ((h ++ lit "super()" ++ [semicolon]) ++ logger_line C) ++ v)
    with (((u ++ h ++ lit "super()") ++ [semicolon]) ++ logger_line C ++ v)
    by (by rewrite <- !app_assoc).
  by apply contains_insert_after_semicolon.
Qed.

Lemma logger_line_marked C : contains LOGGER_MARK (logger_line C) = true.
Proof.
  unfold logger_line. apply (contains_app_r _ [NL]), contains_app_l. done.
Qed.

Lemma insert_logger_settled C D :
  contains LOGGER_MARK (insert_logger C D) = true ∨
  has_ctor_b (insert_logger C D) = false.
Proof.
  destruct (insert_logger_cases C D)
    as [[H ->]|[(_ & H & ->)|(_ & i & m & _ & _ & _ & _ & ->)]].
  - by left.
  - right. by apply ctor_search_from_None in H.
  - left. apply contains_app_r, contains_app_l, contains_app_r.
    apply logger_line_marked.
Qed.

(** * The properties of the specification *)

(** C1. The per-file transform is idempotent: for every document and every
    component name, transforming the result of a transformation again gives
    the same text.  On the second run both guards hold, or no constructor
    is found as before, and no [console] opener is left to rewrite. *)
Theorem transform_idempotent (C D : str) :
  transform C (transform C D) = transform C D.
Proof.
  set (T := transform C D).
  assert (contains IMPORT_MARK T = true) as HI.
  { apply call_site_contains; [done|].
    apply insert_logger_keeps; [done|done|]. apply insert_import_marked. }
  assert (contains LOGGER_MARK T = true ∨ has_ctor_b T = false) as HL.
  { destruct (insert_logger_settled C (insert_import D)) as [H|H].
    - left. by apply call_site_contains.
    - right. destruct (has_ctor_b T) eqn:E; [|done].
      apply call_site_has_ctor_inv in E. congruence. }
  unfold transform at 1.
  rewrite (insert_import_fixed T HI), (insert_logger_fixed C T HL).
  apply call_site_idempotent.
Qed.

(** C2. Call-site substitution is total and preserves everything else.
    For every document [D] the result is [D] rewritten from left to right
    by the five pairs written out here: every occurrence of
    [console.log(], [console.warn(], [console.error(], [console.info(] and
    [console.debug(] is replaced by [this.debug.log(], [this.debug.warn(],
    [this.debug.error(], [this.debug.info(] and [this.debug.debug(]
    respectively, and every other character is kept; by [call_site_unique]
    the result is the only such text.  An occurrence of an opener is
    replaced whatever the text [a] in front of it and the text [b] behind
    it are (a string literal, a comment, the arguments of the call), and
    the two are rewritten on their own.  No opener is left in the result,
    and the document comes back unchanged exactly when it holds none of the
    five openers. *)
Theorem call_site_substitution_total (D a b : str) :
  rewr true
    [ (lit "console.log(", lit "this.debug.log(");
      (lit "console.warn(", lit "this.debug.warn(");
      (lit "console.error(", lit "this.debug.error(");
      (lit "console.info(", lit "this.debug.info(");
      (lit "console.debug(", lit "this.debug.debug(") ]
    D (call_site_substitution D) ∧
  (call_site_substitution (a ++ lit "console.log(" ++ b) =
     call_site_substitution a ++ lit "this.debug.log(" ++
     call_site_substitution b ∧
   call_site_substitution (a ++ lit "console.warn(" ++ b) =
     call_site_substitution a ++ lit "this.debug.warn(" ++
     call_site_substitution b ∧
   call_site_substitution (a ++ lit "console.error(" ++ b) =
     call_site_substitution a ++ lit "this.debug.error(" ++
     call_site_substitution b ∧
   call_site_substitution (a ++ lit "console.info(" ++ b) =
     call_site_substitution a ++ lit "this.debug.info(" ++
     call_site_substitution b ∧
   call_site_substitution (a ++ lit "console.debug(" ++ b) =
     call_site_substitution a ++ lit "this.debug.debug(" ++
     call_site_substitution b) ∧
  (contains (lit "console.log(") (call_site_substitution D) = false ∧
   contains (lit "console.warn(") (call_site_substitution D) = false ∧
   contains (lit "console.error(") (call_site_substitution D) = false ∧
   contains (lit "console.info(") (call_site_substitution D) = false ∧
   contains (lit "console.debug(") (call_site_substitution D) = false) ∧
  (contains (lit "console.log(") D = false ∧
   contains (lit "console.warn(") D = false ∧
   contains (lit "console.error(") D = false ∧
   contains (lit "console.info(") D = false ∧
   contains (lit "console.debug(") D = false ↔
   call_site_substitution D = D).
Proof.
  assert (∀ o n, (o, n) ∈ replacements ↔
            (o, n) ∈ [ (lit "console.log(", lit "this.debug.log(");
                       (lit "console.warn(", lit "this.debug.warn(");
                       (lit "console.error(", lit "this.debug.error(");
                       (lit "console.info(", lit "this.debug.info(");
                       (lit "console.debug(", lit "this.debug.debug(") ])
    as Hrs by done.
  split; [exact (call_site_rewr D)|]. split; [|split].
  - repeat split; apply call_site_occurrence, Hrs;
      repeat first [apply list_elem_of_here | apply list_elem_of_further].
  - repeat split; eapply (call_site_clean D), Hrs;
      repeat first [apply list_elem_of_here | apply list_elem_of_further].
  - split.
    + intros (H1 & H2 & H3 & H4 & H5). apply call_site_frame.
      unfold no_opener, replacements. cbn [forallb fst].
      by rewrite H1, H2, H3, H4, H5.
    + intros E. rewrite <- E.
      repeat split; eapply (call_site_clean D), Hrs;
        repeat first [apply list_elem_of_here | apply list_elem_of_further].
Qed.

(** ** Import insertion *)

Lemma IMPORT_LINE_last :
  IMPORT_LINE = lit "import DebugLogger from './DebugLogger.js'" ++ [semicolon].
Proof. reflexivity. Qed.

(** Where the guard found no marker, the edit leaves exactly one. *)
Lemma insert_import_count D :
  contains IMPORT_MARK D = false →
  count_sub IMPORT_MARK (insert_import D) = 1 ∧
  count_sub IMPORT_LINE (insert_import D) = 1.
Proof.
  intros HD.
  assert (count_sub IMPORT_MARK (insert_import D) = 1) as HM.
  { destruct (insert_import_cases D)
      as [[H _]|[(_ & _ & ->)|(_ & u & m & v & _ & _ & E & _ & ->)]].
    - congruence.
    - rewrite IMPORT_LINE_last, <- app_assoc. cbn [app].
      rewrite count_sub_sep by done. rewrite count_sub_sep_head by done.
      apply contains_false_count in HD. rewrite HD. done.
    - rewrite E in HD. rewrite app_assoc in HD.
      pose proof (contains_false_app_l _ _ _ HD) as H1.
      pose proof (contains_false_app_r _ _ _ HD) as H2.
      apply contains_false_count in H1, H2.
      replace (u ++ (m ++ NL :: IMPORT_LINE) ++ v)
        with ((u ++ m) ++ NL :: (lit "import DebugLogger from './DebugLogger.js'"
                                 ++ semicolon :: v)).
      + rewrite !count_sub_sep by done. rewrite H1, H2. done.
      + rewrite IMPORT_LINE_last, <- !app_assoc. cbn [app].
        by rewrite <- !app_assoc. }
  split; [done|].
  pose proof (count_sub_prefix_le IMPORT_MARK IMPORT_LINE (insert_import D)
                eq_refl) as Hle.
  assert (contains IMPORT_LINE (insert_import D) = true) as Hc.
  { destruct (insert_import_cases D)
      as [[H _]|[(_ & _ & ->)|(_ & u & m & v & _ & _ & _ & _ & ->)]].
    - congruence.
    - apply contains_app_l, contains_starts, startswith_refl.
    - apply contains_app_r, contains_app_l, contains_app_r.
      apply (contains_app_r _ [NL]), contains_starts, startswith_refl. }
  rewrite contains_count in Hc. apply negb_true_iff, Nat.eqb_neq in Hc. lia.
Qed.

(** ** Text in front of the document *)

Lemma replace_first_cons x old new l :
  startswith old (x :: l) = false →
  replace_first old new (x :: l) = x :: replace_first old new l.
Proof.
  intros H. unfold replace_first. cbn [find]. rewrite H.
  by destruct (find old l).
Qed.

Lemma ctor_match_head x s : x ≠ 99%N → ctor_match (x :: s) = None.
Proof.
  intros Hx. unfold ctor_match.
  change CTOR with (99%N :: lit "onstructor(").
  rewrite startswith_cons_false; [done|]. congruence.
Qed.

Lemma ctor_search_from_S pos s :
  ctor_search_from (S pos) s = (λ im, (S im.1, im.2)) <$> ctor_search_from pos s.
Proof.
  revert pos. induction s as [|c s IH]; intros pos; cbn [ctor_search_from].
  - by destruct (ctor_match []).
  - destruct (ctor_match (c :: s)); [done|]. apply IH.
Qed.

(** Text without the letter [c] in front of the document moves the
    logger-acquisition edit along with the document. *)
Lemma insert_logger_behind pre C D :
  absent 99%N pre = true →
  contains LOGGER_MARK (pre ++ D) = contains LOGGER_MARK D →
  insert_logger C (pre ++ D) = pre ++ insert_logger C D.
Proof.
  intros Hpre HM. unfold insert_logger. rewrite HM.
  destruct (contains LOGGER_MARK D); [done|]. clear HM.
  assert (ctor_search (pre ++ D) =
          (λ im, (length pre + im.1, im.2)) <$> ctor_search D) as ->.
  { unfold ctor_search. generalize 0. induction pre as [|x pre IH]; intros q.
    - cbn [app length Nat.add]. by destruct (ctor_search_from q D) as [[]|].
    - rewrite absent_cons in Hpre. apply andb_true_iff in Hpre as [Hx Hpre].
      apply not_char_true in Hx. cbn [app ctor_search_from].
      rewrite ctor_match_head by done. rewrite (IH Hpre (S q)).
      rewrite ctor_search_from_S. destruct (ctor_search_from q D) as [[]|];
        [|done]. simpl. do 2 f_equal. lia. }
  destruct (ctor_search D) as [[i m]|] eqn:ES; [|done].
  cbn [fmap option_fmap option_map fst snd]. cbn beta iota.
  apply ctor_search_Some in ES as (_ & _ & _ & Hm).
  assert (∃ t, m = 99%N :: t) as [t ->].
  { destruct Hm as (p & w & b & -> & _).
    by exists (lit "onstructor(" ++ p ++ rparen :: w ++ lbrace :: b ++ SUPER). }
  generalize ((99%N :: t) ++ logger_line C). intros new. clear Hm.
  induction pre as [|x pre IH]; [done|].
  rewrite absent_cons in Hpre. apply andb_true_iff in Hpre as [Hx Hpre].
  apply not_char_true in Hx. cbn [app].
  rewrite replace_first_cons; [by rewrite IH|].
  apply startswith_cons_false. congruence.
Qed.

Lemma call_site_behind_line X :
  call_site_substitution (IMPORT_LINE ++ NL :: X) =
  IMPORT_LINE ++ NL :: call_site_substitution X.
Proof.
  unfold call_site_substitution. rewrite fold_re_sub_sep by done.
  assert (fold_left (λ c pr, re_sub pr.1 pr.2 c) replacements IMPORT_LINE =
          IMPORT_LINE) as -> by (vm_compute; reflexivity).
  done.
Qed.

(** C4, as amended.  Fallback import insertion: when the document has no
    import statement and no logger import, the import line becomes the
    first line of the result, and behind it comes the original content as
    the two later edits leave it: the logger-acquisition insertion and the
    call-site substitutions. *)
Theorem fallback_import_insertion (C D : str) :
  ¬ has_import D →
  contains IMPORT_MARK D = false →
  insert_import D = IMPORT_LINE ++ NL :: D ∧
  transform C D =
    IMPORT_LINE ++ NL :: call_site_substitution (insert_logger C D).
Proof.
  intros Hnone HD. apply import_findall_nil in Hnone.
  assert (insert_import D = IMPORT_LINE ++ NL :: D) as HI.
  { unfold insert_import. by rewrite HD, Hnone. }
  split; [done|]. unfold transform. rewrite HI.
  change (IMPORT_LINE ++ NL :: D) with (IMPORT_LINE ++ [NL] ++ D).
  rewrite app_assoc, insert_logger_behind.
  - rewrite <- app_assoc. apply call_site_behind_line.
  - done.
  - rewrite <- app_assoc. cbn [app]. by rewrite contains_sep.
Qed.

(** ** Import insertion and the constructor pattern *)

(** Where the import line is put behind an import statement, a semicolon
    becomes a semicolon followed by the new line. *)
Lemma insert_import_rewr D :
  contains IMPORT_MARK D = false → import_findall D ≠ [] →
  rewr false [([semicolon], semicolon :: NL :: IMPORT_LINE)] D (insert_import D).
Proof.
  intros HD Hne. destruct (insert_import_cases D)
    as [[H _]|[(_ & H & _)|(_ & u & m & v & _ & Hm & E & _ & ->)]];
    [congruence|done|].
  rewrite E at 1. apply import_stmt_last in Hm as [h ->].
  replace (u ++ (h ++ [semicolon]) ++ v) with ((u ++ h) ++ [semicolon] ++ v)
    by (by rewrite <- !app_assoc).
  replace (u ++ ((h ++ [semicolon]) ++ NL :: IMPORT_LINE) ++ v)
    with ((u ++ h) ++ (semicolon :: NL :: IMPORT_LINE) ++ v)
    by (by rewrite <- !app_assoc).
  apply rewr_splice.
Qed.

Lemma insert_import_prepend D :
  contains IMPORT_MARK D = false → import_findall D = [] →
  insert_import D = (IMPORT_LINE ++ [NL]) ++ D.
Proof.
  intros HD Hnone. unfold insert_import. rewrite HD, Hnone.
  by rewrite <- app_assoc.
Qed.

(** Import insertion creates no place where the constructor pattern
    matches ... *)
Lemma insert_import_no_ctor D :
  has_ctor_b D = false → has_ctor_b (insert_import D) = false.
Proof.
  intros H. destruct (contains IMPORT_MARK D) eqn:HD.
  { by rewrite insert_import_fixed. }
  destruct (has_ctor_b (insert_import D)) eqn:E; [|done].
  rewrite <- H. symmetry. destruct (import_findall D) as [|x l] eqn:EF.
  - rewrite insert_import_prepend in E by done.
    by apply (has_ctor_b_skip (IMPORT_LINE ++ [NL])).
  - revert E.
    apply (rewr_has_ctor false
             (swap_rules [([semicolon], semicolon :: NL :: IMPORT_LINE)])).
    + vm_compute. reflexivity.
    + apply rewr_swap with (st := false), insert_import_rewr; [done|].
      by rewrite EF.
Qed.

(** ... and destroys none. *)
Lemma insert_import_keeps_ctor D :
  has_ctor_b D = true → has_ctor_b (insert_import D) = true.
Proof.
  intros H. destruct (contains IMPORT_MARK D) eqn:HD.
  { by rewrite insert_import_fixed. }
  destruct (import_findall D) as [|x l] eqn:EF.
  - rewrite insert_import_prepend by done. by apply has_ctor_b_add.
  - revert H.
    apply (rewr_has_ctor false [([semicolon], semicolon :: NL :: IMPORT_LINE)]).
    + vm_compute. reflexivity.
    + apply insert_import_rewr; [done|]. by rewrite EF.
Qed.

(** Import insertion neither creates nor destroys a logger-acquisition
    marker. *)
Lemma insert_import_logger_mark D :
  contains LOGGER_MARK (insert_import D) = contains LOGGER_MARK D.
Proof.
  destruct (contains IMPORT_MARK D) eqn:HD.
  { by rewrite insert_import_fixed. }
  destruct (import_findall D) as [|x l] eqn:EF.
  - rewrite insert_import_prepend by done. rewrite <- app_assoc. cbn [app].
    by rewrite contains_sep.
  - assert (import_findall D ≠ []) as Hne by (by rewrite EF).
    pose proof (insert_import_rewr D HD Hne) as Hr.
    destruct (contains LOGGER_MARK D) eqn:E.
    + eapply (rewr_contains false _ LOGGER_MARK D); [|exact Hr|exact E].
      vm_compute. reflexivity.
    + destruct (contains LOGGER_MARK (insert_import D)) eqn:E'; [|done].
      rewrite <- E. symmetry. apply rewr_swap in Hr.
      eapply (rewr_contains false _ LOGGER_MARK _ D); [|exact Hr|exact E'].
      vm_compute. reflexivity.
Qed.

Lemma call_site_logger_mark X :
  contains LOGGER_MARK (call_site_substitution X) = contains LOGGER_MARK X.
Proof.
  destruct (contains LOGGER_MARK X) eqn:E.
  - by apply call_site_contains.
  - destruct (contains LOGGER_MARK (call_site_substitution X)) eqn:E'; [|done].
    apply call_site_contains_inv in E'; [congruence|done].
Qed.

(** Without a place for the constructor pattern the logger-acquisition edit
    does nothing, whatever the import insertion did before. *)
Lemma no_ctor_transform C D :
  has_ctor_b D = false →
  insert_logger C (insert_import D) = insert_import D ∧
  transform C D = call_site_substitution (insert_import D).
Proof.
  intros H. apply insert_import_no_ctor in H.
  assert (insert_logger C (insert_import D) = insert_import D) as E
    by (apply insert_logger_fixed; by right).
  split; [done|]. unfold transform. by rewrite E.
Qed.

Lemma insert_import_spliced D :
  insert_import D = D ∨
  contains IMPORT_MARK D = false ∧
  (spliced (NL :: IMPORT_LINE) D (insert_import D) ∨
   spliced (IMPORT_LINE ++ [NL]) D (insert_import D)).
Proof.
  destruct (insert_import_cases D)
    as [[_ H]|[(HD & _ & ->)|(HD & u & m & v & _ & _ & E & _ & ->)]].
  - by left.
  - right. split; [done|]. right. exists [], D. split; [done|].
    by rewrite <- app_assoc.
  - right. split; [done|]. left. exists (u ++ m), v. split.
    + by rewrite <- app_assoc.
    + by rewrite <- !app_assoc.
Qed.

(** ** Import insertion and the two later edits *)






(** ** Logger-acquisition insertion *)

Lemma logger_line_shape C :
  logger_line C =
  NL :: lit "    this.debug = DebugLogger.create" ++
  40%N :: 39%N :: C ++ 39%N :: 41%N :: [semicolon].
Proof. reflexivity. Qed.

Lemma insert_logger_spliced C D :
  insert_logger C D = D ∨
  contains LOGGER_MARK D = false ∧
  spliced (logger_line C) D (insert_logger C D) ∧
  count_sub LOGGER_MARK (insert_logger C D) = 1 + count_sub LOGGER_MARK C.
Proof.
  destruct (insert_logger_cases C D)
    as [[_ H]|[(_ & _ & H)|(HD & i & m & _ & _ & _ & E & ->)]];
    [by left|by left|].
  right. split; [done|]. remember (take i D) as u eqn:Eu.
  remember (drop (i + length m) D) as v eqn:Ev. clear Eu Ev. split.
  - exists (u ++ m), v. split.
    + by rewrite <- app_assoc.
    + by rewrite <- !app_assoc.
  - rewrite E, app_assoc in HD.
    pose proof (contains_false_app_l _ _ _ HD) as H1.
    pose proof (contains_false_app_r _ _ _ HD) as H2.
    apply contains_false_count in H1, H2.
    replace (u ++ (m ++ logger_line C) ++ v)
      with ((u ++ m) ++ NL :: (lit "    this.debug = DebugLogger.create" ++
              40%N :: 39%N :: (C ++ 39%N :: 41%N :: semicolon :: v))).
    + rewrite !count_sub_sep by done. rewrite count_sub_sep_head by done.
      rewrite count_sub_sep by done. rewrite !count_sub_sep_head by done.
      rewrite H1, H2.
      assert (count_sub LOGGER_MARK (lit "    this.debug = DebugLogger.create")
              = 1) as -> by done.
      lia.
    + rewrite logger_line_shape, <- !app_assoc. cbn [app].
      do 3 f_equal. rewrite <- !app_assoc. cbn [app].
      by rewrite <- !app_assoc.
Qed.

(** C7. Each insertion happens at most once in a run: the import-insertion
    edit either leaves the document as it is or, the guard having found no
    marker, puts the import line in at one place, after which the marker
    occurs exactly once; the logger-acquisition edit, on the text the first
    edit produced, either leaves it as it is or, its guard having found no
    marker, puts the logger line in at one place, after which the marker
    occurs once outside the component name. *)
Theorem at_most_once_insertion (C D : str) :
  (insert_import D = D ∨
   contains IMPORT_MARK D = false ∧
   (spliced (NL :: IMPORT_LINE) D (insert_import D) ∨
    spliced (IMPORT_LINE ++ [NL]) D (insert_import D)) ∧
   count_sub IMPORT_MARK (insert_import D) = 1 ∧
   count_sub IMPORT_LINE (insert_import D) = 1) ∧
  (insert_logger C (insert_import D) = insert_import D ∨
   contains LOGGER_MARK (insert_import D) = false ∧
   spliced (logger_line C) (insert_import D)
     (insert_logger C (insert_import D)) ∧
   count_sub LOGGER_MARK (insert_logger C (insert_import D)) =
     1 + count_sub LOGGER_MARK C) ∧
  transform C D =
    call_site_substitution (insert_logger C (insert_import D)).
Proof.
  split; [|split; [apply insert_logger_spliced|done]].
  destruct (insert_import_spliced D) as [H|[HD H]]; [by left|right].
  split; [done|]. split; [done|]. by apply insert_import_count.
Qed.

(** ** The anchor of the logger-acquisition insertion *)

(** Behind the span the search returns, no [super();] follows before the
    next closing brace. *)
Lemma ctor_search_greedy D i m :
  ctor_search D = Some (i, m) →
  contains SUPER (span (not_char rbrace) (drop (i + length m) D)).1 = false.
Proof.
  intros ES. apply ctor_search_Some in ES as (F & Hm & _ & _).
  apply ctor_match_Some in Hm as (p & w & b & post & E & _ & _ & _ & _ & G).
  assert (post = drop (i + length m) D) as <-.
  { rewrite <- drop_drop, E. by rewrite drop_app_length. }
  destruct (contains SUPER (span (not_char rbrace) post).1) eqn:EC; [|done].
  apply contains_iff in EC as (b2 & q & EC).
  pose proof (span_all (not_char rbrace) post) as Hall. rewrite EC in Hall.
  fold (absent rbrace (b2 ++ SUPER ++ q)) in Hall. rewrite absent_app in Hall.
  apply andb_true_iff in Hall as [Hb2 _].
  rewrite <- (G b2 (q ++ (span (not_char rbrace) post).2)); [done|].
  rewrite <- (span_app (not_char rbrace) post) at 1. rewrite EC.
  by rewrite <- !app_assoc.
Qed.

(** C6, as amended.  For every document with a place where the constructor
    pattern matches, the search returns a span that starts at a constructor
    keyword, runs over the parameter list up to its first closing
    parenthesis, white space, the opening brace and a part of the body
    without a closing brace, and ends with a [super();] call.  The match is
    bounded by the first closing brace and greedy: no further [super();]
    follows the span before the next closing brace, so of several such
    calls the span ends at the last one. *)
Theorem anchor_span (D : str) :
  has_ctor D →
  ∃ i m p w b,
    ctor_search D = Some (i, m) ∧
    m = CTOR ++ p ++ rparen :: w ++ lbrace :: b ++ SUPER ∧
    absent rparen p = true ∧ forallb is_space w = true ∧
    absent rbrace b = true ∧
    D = take i D ++ m ++ drop (i + length m) D ∧
    contains SUPER (span (not_char rbrace) (drop (i + length m) D)).1 = false.
Proof.
  intros H. destruct (ctor_search D) as [[i m]|] eqn:ES.
  2: { by apply ctor_search_None in ES. }
  pose proof ES as ES'. apply ctor_search_Some in ES' as (F & Hm & _ & _).
  apply ctor_match_Some in Hm as (p & w & b & post & E & Em & Hp & Hw & Hb & _).
  destruct (replace_first_at m m D i F) as [ED _].
  exists i, m, p, w, b. repeat split; try done.
  by apply ctor_search_greedy.
Qed.

(** ** Documents without an anchor *)

(** C8. A document without a place for the constructor pattern is still
    given its import and its call-site substitutions: the logger-acquisition
    edit changes nothing, the result is the text after import insertion with
    every opener replaced and every other character kept, the import
    insertion changed the document at one place at most, and no
    logger-acquisition marker appears that was not there. *)
Theorem no_anchor_tolerance (C D : str) :
  ¬ has_ctor D →
  insert_logger C (insert_import D) = insert_import D ∧
  transform C D = call_site_substitution (insert_import D) ∧
  rewr true replacements (insert_import D) (transform C D) ∧
  (insert_import D = D ∨
   spliced (NL :: IMPORT_LINE) D (insert_import D) ∨
   spliced (IMPORT_LINE ++ [NL]) D (insert_import D)) ∧
  contains LOGGER_MARK (transform C D) = contains LOGGER_MARK D.
Proof.
  intros H. assert (has_ctor_b D = false) as Hb.
  { destruct (has_ctor_b D) eqn:E; [|done]. by apply has_ctor_iff in E. }
  destruct (no_ctor_transform C D Hb) as [E1 E2]. repeat split; try done.
  - rewrite E2. apply call_site_rewr.
  - destruct (insert_import_spliced D) as [?|[_ [?|?]]]; auto.
  - by rewrite E2, call_site_logger_mark, insert_import_logger_mark.
Qed.









(** ** Placement of the logger-acquisition line *)


(** ** The batch *)

Lemma update_file_missing path name w :
  files w !! path = None →
  update_file path name w =
  World (files w)
    (trace w ++ [Print (lit "File " ++ path ++ lit " not found, skipping...")]).
Proof. intros H. unfold update_file. by rewrite H. Qed.

(** What [update_file] does depends on the files only; its events are
    added to the trace. *)
Lemma update_file_frame path name fs t :
  update_file path name (World fs t) =
  World (files (update_file path name (World fs [])))
        (t ++ trace (update_file path name (World fs []))).
Proof.
  unfold update_file, emit, write_file. cbn [files trace].
  destruct (fs !! path); cbn [files trace app]; by reassoc.
Qed.

(** [update_file] creates no file. *)
Lemma update_file_keeps_missing path name q w :
  files w !! q = None → files (update_file path name w) !! q = None.
Proof.
  intros H. unfold update_file. destruct (files w !! path) eqn:E; [|done].
  cbn [files emit write_file]. rewrite lookup_insert_ne; [done|]. congruence.
Qed.

Lemma run_entries_frame config fs t :
  run_entries config (World fs t) =
  World (files (run_entries config (World fs [])))
        (t ++ trace (run_entries config (World fs []))).
Proof.
  unfold run_entries. revert fs t.
  induction config as [|[p c] config IH]; intros fs t; cbn [fold_left fst snd].
  - by rewrite app_nil_r.
  - rewrite update_file_frame.
    destruct (update_file p c (World fs [])) as [fs' t'] eqn:EU.
    cbn [files trace]. rewrite (IH fs' (t ++ t')), (IH fs' t').
    cbn [files trace]. by rewrite app_assoc.
Qed.

Lemma run_entries_keeps_missing config q w :
  files w !! q = None → files (run_entries config w) !! q = None.
Proof.
  unfold run_entries. revert w.
  induction config as [|[p c] config IH]; intros w H; [done|].
  cbn [fold_left fst snd]. by apply IH, update_file_keeps_missing.
Qed.

Lemma print_all_frame lines w :
  print_all lines w = World (files w) (trace w ++ map Print lines).
Proof.
  unfold print_all. revert w.
  induction lines as [|l lines IH]; intros [fs t]; cbn [fold_left map files trace].
  - by rewrite app_nil_r.
  - rewrite IH. unfold emit. cbn [files trace]. by reassoc.
Qed.

(** C9. Missing-file tolerance: an entry whose path does not exist makes
    the batch print the skip notice and nothing else, with no read, no write
    and no file changed; the files at the end are those of the batch without
    the entry, and the trace is that batch's trace with the notice at the
    entry's place. *)
Theorem missing_file_tolerance
    (config1 config2 : list (str * str)) (path name : str) (w : world) :
  files w !! path = None →
  ∃ fs1 t1 fs2 t2,
    run_entries config1 (print_all header w) = World fs1 t1 ∧
    update_file path name (World fs1 t1) =
      World fs1
        (t1 ++ [Print (lit "File " ++ path ++ lit " not found, skipping...")]) ∧
    main_with (config1 ++ config2) w = World fs2 (t1 ++ t2) ∧
    main_with (config1 ++ (path, name) :: config2) w =
      World fs2
        (t1 ++ Print (lit "File " ++ path ++ lit " not found, skipping...")
            :: t2).
Proof.
  intros Hmiss.
  assert (files (run_entries config1 (print_all header w)) !! path = None) as H1.
  { apply run_entries_keeps_missing. by rewrite print_all_frame. }
  destruct (run_entries config1 (print_all header w)) as [fs1 t1] eqn:E1.
  cbn [files] in H1.
  exists fs1, t1, (files (run_entries config2 (World fs1 []))),
    (trace (run_entries config2 (World fs1 [])) ++ map Print banner).
  pose proof (update_file_missing path name (World fs1 t1) H1) as HU.
  cbn [files trace] in HU. repeat split; try done.
  - unfold main_with, run_entries. rewrite fold_left_app.
    fold (run_entries config1 (print_all header w)). rewrite E1.
    fold (run_entries config2 (World fs1 t1)).
    rewrite run_entries_frame, print_all_frame. cbn [files trace].
    by rewrite app_assoc.
  - unfold main_with, run_entries. rewrite fold_left_app.
    fold (run_entries config1 (print_all header w)). rewrite E1.
    cbn [fold_left fst snd]. rewrite HU.
    fold (run_entries config2
            (World fs1 (t1 ++ [Print (lit "File " ++ path ++
                                      lit " not found, skipping...")]))).
    rewrite run_entries_frame, print_all_frame. cbn [files trace].
    by reassoc.
Qed.

(** * The properties at concrete documents *)

Example call_site_five_calls :
  call_site_substitution doc_five_calls =
  lit "this.debug.log(a); this.debug.warn(b); this.debug.error(c); this.debug.info(d); this.debug.debug(e);".
Proof. vm_compute. reflexivity. Qed.

Lemma call_site_substitution_total_witness :
  call_site_substitution
    (lit "// " ++ lit "console.log(" ++ lit "x); s = 'console.warn(y)';") =
  lit "// this.debug.log(x); s = 'this.debug.warn(y)';" ∧
  contains (lit "console.debug(") (call_site_substitution doc_five_calls) =
    false.
Proof.
  destruct (call_site_substitution_total doc_five_calls (lit "// ")
              (lit "x); s = 'console.warn(y)';"))
    as (_ & (E & _) & (_ & _ & _ & _ & H) & _).
  split; [|exact H]. rewrite E. vm_compute. reflexivity.
Defined.

Example transform_widget :
  transform Widget doc_widget =
  IMPORT_LINE ++ NL :: lit "class W extends B {" ++
  NL :: lit "  constructor(x) { super();" ++
  NL :: lit "    this.debug = DebugLogger.create('Widget'); this.x = x; }" ++
  NL :: lit "}".
Proof. vm_compute. reflexivity. Qed.

Example block_first_no_anchor : ctor_search doc_block_first = None.
Proof. vm_compute. reflexivity. Qed.



(** C4 as the specification states it fails where the document has a
    constructor: behind the import line the original content is changed by
    the logger-acquisition insertion, not by call-site substitutions only. *)
Lemma fallback_rest_counterexample :
  ¬ has_import doc_ctor_no_import ∧
  contains IMPORT_MARK doc_ctor_no_import = false ∧
  transform Widget doc_ctor_no_import ≠
    IMPORT_LINE ++ NL :: call_site_substitution doc_ctor_no_import.
Proof.
  split; [apply import_findall_nil; vm_compute; reflexivity|].
  split; [vm_compute; reflexivity|]. vm_compute. discriminate.
Qed.

Lemma fallback_import_insertion_witness :
  ¬ has_import doc_no_import ∧
  contains IMPORT_MARK doc_no_import = false ∧
  transform Widget doc_no_import =
    IMPORT_LINE ++ NL :: lit "class A { m() { this.debug.log(1); } }".
Proof.
  assert (¬ has_import doc_no_import) as H1
    by (apply import_findall_nil; vm_compute; reflexivity).
  assert (contains IMPORT_MARK doc_no_import = false) as H2
    by (vm_compute; reflexivity).
  split; [exact H1|]. split; [exact H2|].
  destruct (fallback_import_insertion Widget doc_no_import H1 H2) as [_ H].
  rewrite H. vm_compute. reflexivity.
Defined.



(** C6 as the specification states it fails: with two [super();] calls
    before the first closing brace the captured span ends at the second
    one and holds the statement between them. *)
Lemma anchor_minimality_counterexample :
  has_ctor doc_two_super ∧
  ctor_search doc_two_super =
    Some (0, lit "constructor() { super(); a(); super();") ∧
  lit "constructor() { super(); a(); super();" ≠
    lit "constructor() { super();" ∧
  count_sub SUPER (lit "constructor() { super(); a(); super();") = 2.
Proof.
  split.
  - apply has_ctor_iff. vm_compute. reflexivity.
  - split; [vm_compute; reflexivity|]. split; [|vm_compute; reflexivity].
    vm_compute. discriminate.
Qed.

Lemma anchor_span_witness :
  has_ctor doc_two_super ∧
  ∃ i m p w b,
    ctor_search doc_two_super = Some (i, m) ∧
    m = CTOR ++ p ++ rparen :: w ++ lbrace :: b ++ SUPER ∧
    absent rparen p = true ∧ forallb is_space w = true ∧
    absent rbrace b = true ∧
    doc_two_super = take i doc_two_super ++ m ++
                    drop (i + length m) doc_two_super ∧
    contains SUPER
      (span (not_char rbrace) (drop (i + length m) doc_two_super)).1 = false.
Proof.
  assert (has_ctor doc_two_super) as H1
    by (apply has_ctor_iff; vm_compute; reflexivity).
  split; [exact H1|]. exact (anchor_span doc_two_super H1).
Defined.

Lemma no_anchor_tolerance_witness :
  ¬ has_ctor doc_no_ctor ∧
  transform Widget doc_no_ctor =
    lit "import a from 'a';" ++ NL :: IMPORT_LINE ++
    NL :: lit "function f() { this.debug.log(1); }".
Proof.
  assert (¬ has_ctor doc_no_ctor) as H1
    by (apply ctor_search_None; vm_compute; reflexivity).
  split; [exact H1|].
  destruct (no_anchor_tolerance Widget doc_no_ctor H1) as (_ & H & _).
  rewrite H. vm_compute. reflexivity.
Defined.

Lemma missing_file_tolerance_witness :
  files world_one_file !! lit "gone.js" = None ∧
  ∃ fs1 t1 fs2 t2,
    run_entries [(lit "a.js", lit "A")] (print_all header world_one_file) =
      World fs1 t1 ∧
    update_file (lit "gone.js") (lit "Gone") (World fs1 t1) =
      World fs1
        (t1 ++ [Print (lit "File " ++ lit "gone.js" ++
                       lit " not found, skipping...")]) ∧
    main_with ([(lit "a.js", lit "A")] ++ [(lit "a.js", lit "B")])
      world_one_file = World fs2 (t1 ++ t2) ∧
    main_with ([(lit "a.js", lit "A")] ++
               (lit "gone.js", lit "Gone") :: [(lit "a.js", lit "B")])
      world_one_file =
      World fs2
        (t1 ++ Print (lit "File " ++ lit "gone.js" ++
                      lit " not found, skipping...") :: t2).
Proof.
  assert (files world_one_file !! lit "gone.js" = None) as H1
    by (vm_compute; reflexivity).
  split; [exact H1|].
  exact (missing_file_tolerance [(lit "a.js", lit "A")] [(lit "a.js", lit "B")]
           (lit "gone.js") (lit "Gone") world_one_file H1).
Defined.



(** * Further properties of the script *)

(** ** The transform and the texts it leaves alone *)

Lemma transform_import_marked C D : contains IMPORT_MARK (transform C D) = true.
Proof.
  apply call_site_contains; [done|].
  apply insert_logger_keeps; [done|done|]. apply insert_import_marked.
Qed.

Lemma transform_logger_settled C D :
  contains LOGGER_MARK (transform C D) = true ∨
  has_ctor_b (transform C D) = false.
Proof.
  destruct (insert_logger_settled C (insert_import D)) as [H|H].
  - left. by apply call_site_contains.
  - right. destruct (has_ctor_b (transform C D)) eqn:E; [|done].
    apply call_site_has_ctor_inv in E. congruence.
Qed.

Lemma no_opener_spec s :
  no_opener s = true ↔ ∀ o n, (o, n) ∈ replacements → contains o s = false.
Proof.
  unfold no_opener. rewrite forallb_forall. split.
  - intros H o n Hin. apply list_elem_of_In in Hin. specialize (H _ Hin).
    cbn [fst] in H. by destruct (contains o s).
  - intros H [o n] Hin. apply list_elem_of_In in Hin. cbn [fst].
    by rewrite (H o n Hin).
Qed.

Lemma transform_no_opener C D : no_opener (transform C D) = true.
Proof. apply no_opener_spec. intros o n. apply call_site_clean. Qed.

(** A text with both guards settled and no opener is left as it is, whatever
    the component name. *)
Lemma transform_leaves C T :
  contains IMPORT_MARK T = true →
  contains LOGGER_MARK T = true ∨ has_ctor_b T = false →
  no_opener T = true →
  transform C T = T.
Proof.
  intros HI HL HO. unfold transform.
  rewrite (insert_import_fixed T HI), (insert_logger_fixed C T HL).
  apply fold_re_sub_absent. by apply no_opener_spec.
Qed.

(** X1. What the transform returns is left unchanged by the transform under
    every component name: a second run with another name in the table
    changes nothing, so the name in a logger line that was inserted once is
    never brought up to date. *)
Theorem transform_settles (C1 C2 D : str) :
  transform C1 (transform C2 D) = transform C2 D.
Proof.
  apply transform_leaves.
  - apply transform_import_marked.
  - apply transform_logger_settled.
  - apply transform_no_opener.
Qed.

(** X2. The documents the transform leaves unchanged are exactly those that
    hold the import marker, hold the logger marker or have no place where
    the constructor pattern matches, and hold none of the five call
    openers; the component name plays no part. *)
Theorem transform_fixed_points (C D : str) :
  transform C D = D ↔
  contains IMPORT_MARK D = true ∧
  (contains LOGGER_MARK D = true ∨ ¬ has_ctor D) ∧
  no_opener D = true.
Proof.
  split.
  - intros E. repeat split.
    + rewrite <- E. apply transform_import_marked.
    + destruct (transform_logger_settled C D) as [H|H]; rewrite E in H.
      * by left.
      * right. rewrite <- has_ctor_iff. congruence.
    + rewrite <- E. apply transform_no_opener.
  - intros (HI & HL & HO). apply transform_leaves; [done| |done].
    destruct HL as [HL|HL]; [by left|right].
    destruct (has_ctor_b D) eqn:E; [|done]. by apply has_ctor_iff in E.
Qed.

(** X3. What every run establishes: the result holds the import marker and
    none of the five call openers, and it holds the logger marker exactly
    when the document held it already or has a place where the constructor
    pattern matches. *)
Theorem transform_postcondition (C D : str) :
  contains IMPORT_MARK (transform C D) = true ∧
  no_opener (transform C D) = true ∧
  (contains LOGGER_MARK (transform C D) = true ↔
   contains LOGGER_MARK D = true ∨ has_ctor D).
Proof.
  split; [apply transform_import_marked|].
  split; [apply transform_no_opener|].
  unfold transform. rewrite call_site_logger_mark. split.
  - intros H. destruct (contains LOGGER_MARK D) eqn:EM; [by left|right].
    destruct (has_ctor_b D) eqn:EC; [by apply has_ctor_iff|].
    destruct (no_ctor_transform C D EC) as [E _]. rewrite E in H.
    rewrite insert_import_logger_mark in H. congruence.
  - intros [H|H].
    + rewrite insert_logger_fixed; rewrite insert_import_logger_mark; auto.
    + apply has_ctor_iff, insert_import_keeps_ctor in H.
      destruct (insert_logger_cases C (insert_import D))
        as [[HM ->]|[(_ & HS & _)|(_ & i & m & _ & _ & _ & _ & ->)]].
      * done.
      * apply ctor_search_None in HS. by apply has_ctor_iff in H.
      * apply contains_app_r, contains_app_l, contains_app_r.
        apply logger_line_marked.
Qed.

(** Where a left-hand side occurs, the strict rewriting puts its right-hand
    side. *)
Lemma rewr_strict_replaces rs o n X Y :
  rules_distinct rs = true → rules_apart rs = true → (o, n) ∈ rs →
  rewr true rs X Y → contains o X = true → contains n Y = true.
Proof.
  intros Hd Ha Hin H.
  assert (o ≠ []) as Ho.
  { unfold rules_distinct in Hd. rewrite forallb_forall in Hd.
    specialize (Hd (o, n)). rewrite andb_true_iff in Hd.
    destruct Hd as [Hne _]; [by apply list_elem_of_In|].
    by apply length_nonzero. }
  induction H as [|c X Y Hs H IH|o' n' X Y Hin' H IH].
  - by rewrite contains_nil_r.
  - intros Hc. cbn [contains] in Hc. apply orb_true_iff in Hc as [Hc|Hc].
    + specialize (Hs eq_refl).
      by rewrite (opener_at_elem rs o n (c :: X) Hin Hc) in Hs.
    + by apply contains_cons, IH.
  - intros Hc. destruct (startswith o (o' ++ X)) eqn:Es.
    + unfold rules_distinct in Hd. rewrite forallb_forall in Hd.
      specialize (Hd (o, n)). rewrite andb_true_iff in Hd.
      destruct Hd as [_ Hd]; [by apply list_elem_of_In|].
      rewrite forallb_forall in Hd. specialize (Hd (o', n')).
      cbn [fst snd] in Hd.
      rewrite (prefixes_compatible o o' (o' ++ X) Es (startswith_app _ _)) in Hd.
      rewrite orb_false_r, andb_true_iff in Hd.
      destruct Hd as [_ E2]; [by apply list_elem_of_In|].
      apply str_eqb_eq in E2 as <-. apply contains_starts, startswith_app.
    + apply contains_app_r, IH. destruct o' as [|a o'']; [done|].
      change ((a :: o'') ++ X) with (a :: (o'' ++ X)) in Hc, Es.
      cbn [contains] in Hc. rewrite Es in Hc. cbn [orb] in Hc.
      apply (contains_skip o''); [|done].
      unfold rules_apart in Ha. rewrite forallb_forall in Ha.
      specialize (Ha (o, n)). rewrite forallb_forall in Ha.
      apply (Ha (proj1 (list_elem_of_In _ _) Hin) (a :: o'', n')).
      by apply list_elem_of_In.
Qed.

Lemma call_site_replaces o n D :
  (o, n) ∈ replacements → contains o D = true →
  contains n (call_site_substitution D) = true.
Proof.
  intros Hin. apply (rewr_strict_replaces replacements o n); [| |done|].
  - vm_compute. reflexivity.
  - vm_compute. reflexivity.
  - apply call_site_rewr.
Qed.

(** The import insertion keeps every occurrence of a text without a
    semicolon. *)
Lemma insert_import_keeps p D :
  p ≠ [] → absent semicolon p = true →
  contains p D = true → contains p (insert_import D) = true.
Proof.
  intros Hp Ha Hc.
  destruct (insert_import_cases D)
    as [[_ ->]|[(_ & _ & ->)|(_ & u & m & v & _ & Hm & E & _ & ->)]].
  - done.
  - change (IMPORT_LINE ++ NL :: D) with (IMPORT_LINE ++ [NL] ++ D).
    by apply contains_app_r, contains_app_r.
  - apply import_stmt_last in Hm as [h ->]. rewrite E in Hc.
    rewrite app_assoc in Hc. rewrite (app_assoc u h) in Hc.
    pose proof (contains_insert_after_semicolon p (u ++ h) (NL :: IMPORT_LINE) v
                  Hp Ha Hc) as H.
    revert H. by reassoc.
Qed.

Lemma opener_shapes o n :
  (o, n) ∈ replacements → o ≠ [] ∧ absent semicolon o = true.
Proof.
  intros Hin.
  pose proof (rules_forall (λ o _, negb (Nat.eqb (length o) 0) && absent semicolon o)
                replacements o n eq_refl Hin) as H.
  cbn beta in H. apply andb_true_iff in H as [H1 H2].
  split; [by apply length_nonzero|done].
Qed.

(** X4. A document that has none of the markers, no place where the
    constructor pattern matches, and a [console] call: the result calls the
    logger instance, and nothing in it acquires one. *)
Theorem dangling_logger_reference (C D o n : str) :
  ¬ has_ctor D → contains LOGGER_MARK D = false →
  (o, n) ∈ replacements → contains o D = true →
  contains n (transform C D) = true ∧
  contains LOGGER_MARK (transform C D) = false.
Proof.
  intros HC HM Hin Ho.
  assert (has_ctor_b D = false) as HB.
  { destruct (has_ctor_b D) eqn:E; [|done]. by apply has_ctor_iff in E. }
  destruct (no_ctor_transform C D HB) as [_ ->].
  destruct (opener_shapes o n Hin) as [Hne Ha]. split.
  - apply (call_site_replaces o n); [done|]. by apply insert_import_keeps.
  - by rewrite call_site_logger_mark, insert_import_logger_mark.
Qed.

Lemma absent_semicolon_no_import D : absent semicolon D = true → ¬ has_import D.
Proof.
  intros HA (pre & m & post & -> & run & -> & _).
  rewrite !absent_app in HA. cbn in HA.
  rewrite !andb_true_iff in HA. by destruct HA as (_ & (_ & _ & ?) & _).
Qed.

Lemma absent_semicolon_no_ctor D : absent semicolon D = true → ¬ has_ctor D.
Proof.
  intros HA (pre & m & post & -> & Hm).
  apply ctor_prolog_last in Hm as [h ->]. rewrite SUPER_last in HA.
  rewrite !absent_app in HA. cbn in HA.
  rewrite !andb_true_iff in HA. by destruct HA as (_ & (_ & _ & ?) & _).
Qed.

(** X5. Source text without a semicolon: neither pattern can match, so the
    import line goes to the top even when the text has import statements,
    no logger line is inserted even when it has a constructor that calls
    [super()], and the rest is the call-site substitution of the text. *)
Theorem semicolon_free_document (C D : str) :
  absent semicolon D = true →
  import_findall D = [] ∧ ctor_search D = None ∧
  transform C D =
    if contains IMPORT_MARK D then call_site_substitution D
    else IMPORT_LINE ++ NL :: call_site_substitution D.
Proof.
  intros HA.
  pose proof (absent_semicolon_no_import D HA) as HI.
  pose proof (absent_semicolon_no_ctor D HA) as HC.
  apply import_findall_nil in HI. split; [done|].
  split; [by apply ctor_search_None|].
  assert (has_ctor_b D = false) as HB.
  { destruct (has_ctor_b D) eqn:E; [|done]. by apply has_ctor_iff in E. }
  destruct (no_ctor_transform C D HB) as [_ ->].
  unfold insert_import. rewrite HI. cbn [last].
  destruct (contains IMPORT_MARK D); [done|]. apply call_site_behind_line.
Qed.

(** ** The import pattern and its scan *)

(** What the matcher leaves is the end of the text it was given. *)
Lemma star_suffix k cont s rest :
  (∀ s' rest', cont s' = Some rest' → ∃ m, s' = m ++ rest') →
  star k cont s = Some rest → ∃ m, s = m ++ rest.
Proof.
  intros Hc. induction s as [|x t IH]; cbn [star]; [apply Hc|].
  destruct (in_cls k x); [|apply Hc].
  destruct (star k cont t) as [r|] eqn:E; [|apply Hc].
  intros [= ->]. destruct (IH eq_refl) as [m ->]. by exists (x :: m).
Qed.

Lemma run_suffix r cont s rest :
  (∀ s' rest', cont s' = Some rest' → ∃ m, s' = m ++ rest') →
  run r cont s = Some rest → ∃ m, s = m ++ rest.
Proof.
  revert cont s rest.
  induction r as [|k|k|k|r1 IH1 r2 IH2]; intros cont s rest Hc; cbn [run].
  - apply Hc.
  - destruct s as [|x t]; [done|]. destruct (in_cls k x); [|done].
    intros H. apply Hc in H as [m ->]. by exists (x :: m).
  - by apply star_suffix.
  - destruct s as [|x t]; [done|]. destruct (in_cls k x); [|done].
    intros H. apply star_suffix in H as [m ->]; [|done]. by exists (x :: m).
  - apply IH1. intros s' rest'. by apply IH2.
Qed.

Lemma matched_app m rest : matched (m ++ rest) rest = m.
Proof.
  unfold matched. rewrite length_app.
  replace (length m + length rest - length rest) with (length m) by lia.
  by rewrite take_app_length.
Qed.

(** X6. The import pattern, run by the backtracking matcher at the head of a
    text, matches exactly when the text starts with [import], one or more
    characters other than a semicolon, and a semicolon; what it leaves is
    the text behind that first semicolon.  Line breaks do not end the
    match, and [import;] is no match. *)
Theorem import_pattern_matches (s rest : str) :
  run import_pattern Some s = Some rest ↔
  ∃ r, s = IMPORT ++ r ++ semicolon :: rest ∧ r ≠ [] ∧
       absent semicolon r = true.
Proof.
  pose proof (import_match_regex s) as HR. split.
  - intros H. rewrite H in HR. cbn in HR.
    apply import_match_Some in HR as [E (r & Em & Hr & Ha)].
    exists r. rewrite E at 1. rewrite Em. by rewrite <- !app_assoc.
  - intros (r & E & Hr & Ha).
    assert (import_stmt (IMPORT ++ r ++ [semicolon])) as Hm by by exists r.
    apply (import_match_stmt _ rest) in Hm.
    rewrite <- !app_assoc in Hm. cbn [app] in Hm. rewrite <- E in Hm.
    rewrite Hm in HR. destruct (run import_pattern Some s) as [rest'|]; [|done].
    cbn in HR. congruence.
Qed.

Lemma import_scan_aux n s pos :
  length s ≤ n →
  (∀ k i1 m1 i2 m2,
     import_finditer_aux 0 pos s !! k = Some (i1, m1) →
     import_finditer_aux 0 pos s !! S k = Some (i2, m2) →
     i1 + length m1 ≤ i2) ∧
  (∀ j m post,
     drop j s = m ++ post → import_stmt m →
     ∃ i m', (i, m') ∈ import_finditer_aux 0 pos s ∧
             i ≤ pos + j ∧ pos + j < i + length m').
Proof.
  revert s pos. induction n as [n IH] using lt_wf_ind. intros s pos Hn.
  destruct (import_finditer_aux 0 pos s) as [|[i m0] L] eqn:EL.
  - split; [done|]. intros j m post E Hm. exfalso.
    pose proof (proj1 (import_finditer_nil s pos) EL j) as HN.
    by rewrite E, import_match_stmt in HN.
  - apply import_finditer_cons in EL as (k & rest & -> & Hk & HM & Hlt & ->).
    pose proof HM as [Ek Hm0]%import_match_Some.
    pose proof (import_stmt_nonempty m0 Hm0) as Hne.
    assert (length m0 + length rest = length s - k) as Hlen.
    { rewrite <- length_app, <- Ek, length_drop. done. }
    assert (0 < length m0) as Hpos by (destruct m0; [done|cbn; lia]).
    assert (rest = drop (k + length m0) s) as Er.
    { rewrite <- drop_drop, Ek. by rewrite drop_app_length. }
    destruct (IH (length rest) ltac:(lia) rest (pos + k + length m0) ltac:(lia))
      as [IHb IHc].
    split.
    + intros [|k'] i1 m1 i2 m2 H1 H2.
      * cbn in H1, H2. injection H1 as <- <-.
        apply list_elem_of_lookup_2 in H2.
        apply (import_finditer_elem (length rest)) in H2
          as (k2 & rest2 & -> & _); [lia|done].
      * cbn in H1, H2. by apply (IHb k' i1 m1 i2 m2).
    + intros j m post E Hm.
      destruct (decide (j < k)) as [Hj|Hj].
      { exfalso. specialize (Hlt j Hj). by rewrite E, import_match_stmt in Hlt. }
      destruct (decide (j < k + length m0)) as [Hj'|Hj'].
      { exists (pos + k), m0. split; [apply list_elem_of_here|lia]. }
      destruct (IHc (j - (k + length m0)) m post) as (i' & m' & Hin & H1 & H2).
      { rewrite Er, drop_drop, <- E. f_equal. lia. }
      { done. }
      exists i', m'. split; [by apply list_elem_of_further|lia].
Qed.

(** X7. The scan of the document for import statements: every element of
    the list is a match of the pattern and stands at its index in the
    document; the elements come from left to right and do not overlap; and
    every place where the pattern can match lies inside one of them, so the
    scan passes over a match only where it starts inside an earlier one. *)
Theorem import_scan (D : str) :
  (∀ i m, (i, m) ∈ import_finditer D →
     import_stmt m ∧ D = take i D ++ m ++ drop (i + length m) D) ∧
  (∀ k i1 m1 i2 m2,
     import_finditer D !! k = Some (i1, m1) →
     import_finditer D !! S k = Some (i2, m2) →
     i1 + length m1 ≤ i2) ∧
  (∀ pre m post,
     D = pre ++ m ++ post → import_stmt m →
     ∃ i m', (i, m') ∈ import_finditer D ∧
             i ≤ length pre ∧ length pre < i + length m').
Proof.
  destruct (import_scan_aux (length D) D 0 ltac:(done)) as [Hb Hc].
  split; [|split; [exact Hb|]].
  - intros i m Hin.
    apply (import_finditer_elem (length D)) in Hin as (k & rest & -> & Hk);
      [|done].
    apply import_match_Some in Hk as [E Hm]. split; [done|]. cbn [plus].
    rewrite <- drop_drop, E, drop_app_length. by rewrite <- E, take_drop.
  - intros pre m post E Hm.
    destruct (Hc (length pre) m post) as (i & m' & Hin & H1 & H2); [|done|].
    + by rewrite E, drop_app_length.
    + exists i, m'. cbn [plus] in *. done.
Qed.

(** X8. With any number of import statements: when the last element of the
    scan is [m] at index [i] and the document has no import marker, the
    import line is put behind the first occurrence of the text [m] in the
    document, at an index [j] that is at most [i]; it stands behind the
    last import statement itself when that text occurs only once. *)
Theorem import_line_placement
    (D : str) (L : list (nat * str)) (i : nat) (m : str) :
  import_finditer D = L ++ [(i, m)] →
  contains IMPORT_MARK D = false →
  ∃ j, find m D = Some j ∧ j ≤ i ∧
       insert_import D =
         take j D ++ m ++ NL :: IMPORT_LINE ++ drop (j + length m) D ∧
       (count_sub m D = 1 → j = i).
Proof.
  intros HL HM.
  assert ((i, m) ∈ import_finditer_aux 0 0 D) as Hin.
  { fold (import_finditer D). rewrite HL. apply elem_of_app. right.
    apply list_elem_of_here. }
  apply (import_finditer_elem (length D)) in Hin as (k & rest & -> & Hk); [|done].
  cbn [plus] in *. apply import_match_Some in Hk as [Ek Hm].
  assert (startswith m (drop k D) = true) as Hs
    by (rewrite Ek; apply startswith_app).
  assert (k ≤ length D) as Hlen.
  { destruct (decide (k ≤ length D)) as [|Hn]; [done|].
    rewrite drop_ge in Ek by lia. symmetry in Ek.
    apply app_eq_nil in Ek as [Ek _]. by apply import_stmt_nonempty in Hm. }
  destruct (find m D) as [j|] eqn:F.
  2:{ apply find_None in F. rewrite <- (take_drop k D), Ek in F.
      rewrite contains_app_r in F; [done|]. apply contains_starts.
      apply startswith_app. }
  exists j. pose proof F as F'. apply find_Some in F' as (Hj & Hsj & Hmin).
  assert (j ≤ k) as Hjk.
  { destruct (decide (j ≤ k)) as [|Hn]; [done|].
    rewrite Hmin in Hs; [done|lia]. }
  split; [done|]. split; [done|]. split.
  - unfold insert_import, import_findall. rewrite HM, HL, fmap_app.
    cbn [fmap list_fmap snd]. rewrite last_snoc.
    destruct (replace_first_at m (m ++ NL :: IMPORT_LINE) D j F) as [_ ->].
    by rewrite <- app_assoc.
  - intros Hc. destruct (decide (j = k)) as [|Hn]; [done|].
    pose proof (count_sub_two m D j k ltac:(lia) Hlen Hsj Hs). lia.
Qed.

(** ** The constructor pattern and the anchor *)

Lemma rfind_app_last p b q :
  p ≠ [] → clash_free (tail p) p = true → contains p q = false →
  rfind p (b ++ p ++ q) = Some (length b).
Proof.
  intros Hp Hc Hq. induction b as [|c b IH].
  - destruct p as [|a p']; [done|]. cbn [tail] in Hc.
    change (([] : str) ++ (a :: p') ++ q) with (a :: (p' ++ q)).
    cbn [rfind].
    assert (rfind (a :: p') (p' ++ q) = None) as ->.
    { apply rfind_None. destruct (contains (a :: p') (p' ++ q)) eqn:E; [|done].
      apply contains_skip in E; [congruence|done]. }
    change (a :: p' ++ q) with ((a :: p') ++ q). by rewrite startswith_app.
  - change ((c :: b) ++ p ++ q) with (c :: (b ++ p ++ q)). cbn [rfind].
    by rewrite IH.
Qed.

(** The two ways to say that no [super();] follows before the next closing
    brace. *)
Lemma greedy_forms rest :
  (∀ b2 post2, rest = b2 ++ SUPER ++ post2 → absent rbrace b2 = false) ↔
  contains SUPER (span (not_char rbrace) rest).1 = false.
Proof.
  split.
  - intros G. destruct (contains SUPER (span (not_char rbrace) rest).1) eqn:E;
      [|done].
    apply contains_iff in E as (u & v & E).
    pose proof (span_app (not_char rbrace) rest) as Ea.
    pose proof (span_all (not_char rbrace) rest) as Hall.
    rewrite E in Ea, Hall. fold (absent rbrace (u ++ SUPER ++ v)) in Hall.
    rewrite absent_app in Hall. apply andb_true_iff in Hall as [Hu _].
    rewrite (G u (v ++ (span (not_char rbrace) rest).2)) in Hu; [done|].
    rewrite <- !app_assoc in Ea. by symmetry.
  - intros Hc b2 post2 E. destruct (absent rbrace b2) eqn:A; [|done].
    rewrite E in Hc. rewrite app_assoc in Hc.
    rewrite span_prefix in Hc.
    + rewrite <- app_assoc in Hc.
      rewrite contains_app_r in Hc; [done|]. apply contains_app_l.
      apply contains_starts, startswith_refl.
    + fold (absent rbrace (b2 ++ SUPER)). by rewrite absent_app, A.
Qed.

(** X9. The constructor pattern, run by the backtracking matcher at the
    head of a text, matches exactly when the text starts with
    [constructor(], a parameter list without a closing parenthesis, the
    closing parenthesis, white space, the opening brace, a part of the body
    without a closing brace and [super();], such that no further [super();]
    follows before the next closing brace; what it leaves is the text
    behind that call. *)
Theorem constructor_pattern_matches (s rest : str) :
  run constructor_pattern Some s = Some rest ↔
  ∃ p w b,
    s = CTOR ++ p ++ rparen :: w ++ lbrace :: b ++ SUPER ++ rest ∧
    absent rparen p = true ∧ forallb is_space w = true ∧
    absent rbrace b = true ∧
    contains SUPER (span (not_char rbrace) rest).1 = false.
Proof.
  pose proof (ctor_match_regex s) as HR. split.
  - intros H. rewrite H in HR. cbn [fmap option_fmap option_map] in HR.
    apply run_suffix in H as [m' Em']; [|intros s' r' [= ->]; by exists []].
    rewrite Em', matched_app in HR.
    apply ctor_match_Some in HR as (p & w & b & post & E & Em & Hp & Hw & Hb & G).
    apply app_inv_head in E as <-. exists p, w, b.
    split; [|by rewrite <- greedy_forms].
    rewrite Em', Em. by reassoc.
  - intros (p & w & b & E & Hp & Hw & Hb & G).
    assert (ctor_match s =
            Some (CTOR ++ p ++ [rparen] ++ w ++ [lbrace] ++ b ++ SUPER)) as HM.
    { rewrite E. unfold ctor_match. rewrite startswith_app, drop_app_length.
      rewrite (span_unique (not_char rparen) p rparen _ Hp eq_refl).
      cbv beta iota.
      rewrite (span_unique is_space w lbrace _ Hw eq_refl). cbv beta iota.
      rewrite N.eqb_refl.
      pose proof (span_prefix (not_char rbrace) (b ++ SUPER) rest) as HB.
      rewrite <- app_assoc in HB.
      destruct (span (not_char rbrace) (b ++ SUPER ++ rest)) as [B r].
      cbn [fst] in HB. rewrite HB.
      2:{ fold (absent rbrace (b ++ SUPER)). by rewrite absent_app, Hb. }
      rewrite <- app_assoc. rewrite rfind_app_last; [|done|done|done].
      by rewrite take_app_length. }
    rewrite HM in HR.
    destruct (run constructor_pattern Some s) as [rest'|] eqn:H; [|done].
    cbn [fmap option_fmap option_map] in HR.
    apply run_suffix in H as [m' Em']; [|intros s' r' [= ->]; by exists []].
    rewrite Em', matched_app in HR. injection HR as <-.
    f_equal. rewrite E in Em'. revert Em'. reassoc. intros Em'.
    by repeat (apply app_inv_head in Em' || injection Em' as Em').
Qed.

(** X10. The anchor is the leftmost match: where the search returns a match
    at index [i], every place of the document at which the constructor
    pattern can match starts at [i] or behind it.  Of several constructors
    in one file only the first is given a logger line. *)
Theorem anchor_is_leftmost (D : str) (i : nat) (m pre m' post : str) :
  ctor_search D = Some (i, m) →
  D = pre ++ m' ++ post → ctor_prolog m' → i ≤ length pre.
Proof.
  intros H E Hm'.
  apply ctor_search_Some in H as (_ & _ & Hlt & _).
  destruct (decide (i ≤ length pre)) as [|Hn]; [done|exfalso].
  assert (length pre < i) as Hj by lia. apply Hlt in Hj.
  rewrite E, drop_app_length in Hj. apply ctor_match_None in Hj.
  by rewrite ctor_prolog_at in Hj.
Qed.

(** The logger line of a plain component name reaches the result as it was
    inserted. *)
Lemma logger_line_reaches_result C D :
  plain_name C = true → has_ctor D → contains LOGGER_MARK D = false →
  ∃ i h,
    ctor_search (insert_import D) = Some (i, h ++ SUPER) ∧
    transform C D =
      call_site_substitution (take i (insert_import D) ++ h) ++
      SUPER ++ logger_line C ++
      call_site_substitution
        (drop (i + length (h ++ SUPER)) (insert_import D)) ∧
    count_sub LOGGER_MARK (transform C D) = 1.
Proof.
  intros HP HC HM. apply andb_true_iff in HP as [HP HN].
  apply Nat.eqb_eq in HN.
  apply has_ctor_iff, insert_import_keeps_ctor in HC.
  rewrite <- insert_import_logger_mark in HM.
  remember (insert_import D) as T1 eqn:ET1.
  destruct (insert_logger_cases C T1)
    as [[H _]|[(_ & H & _)|(_ & i & m & ES & Hm & Hi & E & R)]].
  { congruence. }
  { apply ctor_search_from_None in H. congruence. }
  pose proof Hm as Hm'. apply ctor_prolog_last in Hm' as [h ->].
  exists i, h. remember (take i T1) as u eqn:Eu.
  remember (drop (i + length (h ++ SUPER)) T1) as v eqn:Ev.
  assert (T1 = u ++ h ++ SUPER ++ v) as E' by (rewrite E at 1; by reassoc).
  assert (insert_logger C T1 = u ++ h ++ SUPER ++ logger_line C ++ v)
    as R' by (rewrite R; by reassoc).
  assert (transform C D =
          call_site_substitution (u ++ h) ++ SUPER ++ logger_line C ++
          call_site_substitution v) as HT.
  { unfold transform. rewrite <- ET1, R'.
    replace (u ++ h ++ SUPER ++ logger_line C ++ v)
      with ((u ++ h) ++ (SUPER ++ logger_line C) ++ v) by (by reassoc).
    rewrite call_site_literal by done. by reassoc. }
  repeat split; try done.
  rewrite HT.
  assert (contains LOGGER_MARK (call_site_substitution
            ((u ++ h) ++ lit "super()" ++ [])) = false) as H1.
  { rewrite call_site_logger_mark, app_nil_r.
    rewrite E', SUPER_last in HM.
    replace (u ++ h ++ (lit "super()" ++ [semicolon]) ++ v)
      with (((u ++ h) ++ lit "super()") ++ semicolon :: v) in HM
      by (by reassoc).
    by apply contains_false_app_l in HM. }
  assert (contains LOGGER_MARK (call_site_substitution v) = false) as H2.
  { rewrite call_site_logger_mark. rewrite E' in HM.
    rewrite !app_assoc in HM. by apply contains_false_app_r in HM. }
  rewrite call_site_literal in H1 by (vm_compute; reflexivity).
  replace (call_site_substitution []) with (@nil N) in H1 by done.
  rewrite app_nil_r in H1. apply contains_false_count in H1, H2.
  replace (call_site_substitution (u ++ h) ++ SUPER ++ logger_line C ++
           call_site_substitution v)
    with ((call_site_substitution (u ++ h) ++ lit "super()") ++
          semicolon :: [] ++
          NL :: lit "    this.debug = DebugLogger.create" ++
          40%N :: 39%N :: C ++
          39%N :: 41%N :: semicolon :: call_site_substitution v).
  + rewrite !count_sub_sep by done. rewrite count_sub_sep_head by done.
    rewrite count_sub_sep by done. rewrite !count_sub_sep_head by done.
    rewrite H1, H2, HN. done.
  + rewrite SUPER_last, logger_line_shape. by reassoc.
Qed.

(** X11. For each of the fifteen entries of the table and every document
    that has a place where the constructor pattern matches and no logger
    marker: the anchor's [super();] and the logger line with the entry's
    component name stand in the result as they were inserted, between the
    call-site substitutions of the text in front and of the text behind,
    and the result holds the logger marker exactly once. *)
Theorem configured_names_reach_the_file (filepath class_name D : str) :
  (filepath, class_name) ∈ files_config →
  has_ctor D → contains LOGGER_MARK D = false →
  ∃ i h,
    ctor_search (insert_import D) = Some (i, h ++ SUPER) ∧
    transform class_name D =
      call_site_substitution (take i (insert_import D) ++ h) ++
      SUPER ++ logger_line class_name ++
      call_site_substitution
        (drop (i + length (h ++ SUPER)) (insert_import D)) ∧
    count_sub LOGGER_MARK (transform class_name D) = 1.
Proof.
  intros Hin. apply logger_line_reaches_result.
  apply (rules_forall (λ _ c, plain_name c) files_config filepath class_name);
    [|done].
  vm_compute. reflexivity.
Qed.

(** ** The call-site substitution, part by part and rule by rule *)

(** X12. The call-site substitution works on the two sides of every
    character that occurs in none of the five openers, such as a line
    break, one by one: the result for the whole text is the result for the
    text in front, the character, and the result for the text behind. *)
Theorem call_site_substitution_by_parts (c : N) (a b : str) :
  forallb (λ pr, absent c pr.1) replacements = true →
  call_site_substitution (a ++ c :: b) =
  call_site_substitution a ++ c :: call_site_substitution b.
Proof.
  intros H. apply fold_re_sub_sep.
  rewrite forallb_forall in *. intros pr Hin. rewrite (H pr Hin), andb_true_r.
  clear H. revert pr Hin.
  apply (proj1 (forallb_forall (λ pr : str * str, negb (Nat.eqb (length pr.1) 0))
                  replacements)).
  vm_compute. reflexivity.
Qed.

Lemma opener_at_perm rs1 rs2 s :
  rs1 ≡ₚ rs2 → opener_at rs1 s = opener_at rs2 s.
Proof.
  intros H. unfold opener_at.
  destruct (existsb (λ pr, startswith pr.1 s) rs1) eqn:E1;
    destruct (existsb (λ pr, startswith pr.1 s) rs2) eqn:E2; try done.
  - apply existsb_exists in E1 as (pr & Hin & Hs).
    rewrite <- E2. symmetry. apply existsb_exists. exists pr. split; [|done].
    apply list_elem_of_In. rewrite <- H. by apply list_elem_of_In.
  - apply existsb_exists in E2 as (pr & Hin & Hs).
    rewrite <- E1. apply existsb_exists. exists pr. split; [|done].
    apply list_elem_of_In. rewrite H. by apply list_elem_of_In.
Qed.

Lemma rewr_perm st rs1 rs2 X Y :
  rs1 ≡ₚ rs2 → rewr st rs1 X Y → rewr st rs2 X Y.
Proof.
  intros Hp. induction 1 as [|c X Y Hs H IH|o n X Y Hin H IH].
  - constructor.
  - constructor; [|done]. intros ->. rewrite <- (opener_at_perm _ _ _ Hp). auto.
  - constructor; [|done]. by rewrite <- Hp.
Qed.

(** X13. The order of the five rules does not matter: the loop over the
    rules, run in any order, gives the result of the loop in the order of
    the script. *)
Theorem rule_order_irrelevant (rs : list (str * str)) (D : str) :
  rs ≡ₚ replacements →
  fold_left (λ c pr, re_sub pr.1 pr.2 c) rs D = call_site_substitution D.
Proof.
  intros Hp. apply call_site_unique. apply (rewr_perm true rs); [done|].
  apply (fold_re_sub_rewr [] rs D D); [|apply rewr_strict_nil].
  symmetry in Hp. apply permutations_Permutation in Hp.
  revert rs Hp. apply Forall_forall.
  apply (bool_decide_unpack _). vm_compute. reflexivity.
Qed.

(** A strict rewriting of a text without right-hand sides can be read
    backwards. *)
Lemma rewr_strict_reverse rs X Y :
  rules_back rs = true →
  (∀ o n, (o, n) ∈ rs → contains n X = false) →
  rewr true rs X Y → rewr true (swap_rules rs) Y X.
Proof.
  intros Hb HX H. induction H as [|c X Y Hs H IH|o n X Y Hin H IH].
  - constructor.
  - constructor.
    + intros _. destruct (opener_at (swap_rules rs) (c :: Y)) eqn:E; [|done].
      exfalso. apply existsb_exists in E as ([n o] & Hin & Hs').
      apply list_elem_of_In, list_elem_of_fmap in Hin as ([o' n'] & [= -> ->] & Hin).
      cbn [fst] in Hs'.
      assert (startswith n' (c :: X) = true) as Hx.
      { destruct n' as [|a n'']; [done|]. cbn [startswith] in *.
        apply andb_true_iff in Hs' as [-> Hs']. cbn [andb].
        apply (rewr_startswith false (swap_rules rs) n'' Y X);
          [|by apply (rewr_swap true)|done].
        unfold rules_back in Hb. rewrite forallb_forall in Hb.
        specialize (Hb (o', a :: n'') (proj1 (list_elem_of_In _ _) Hin)).
        cbn [snd tail] in Hb. unfold swap_rules. rewrite forallb_forall.
        intros [x y] Hxy. apply list_elem_of_In, list_elem_of_fmap in Hxy
          as ([o2 n2] & [= -> ->] & Hin2).
        rewrite forallb_forall in Hb.
        apply (Hb (o2, n2) (proj1 (list_elem_of_In _ _) Hin2)). }
      apply contains_starts in Hx. by rewrite (HX o' n' Hin) in Hx.
    + apply IH. intros o n Hin. specialize (HX o n Hin).
      cbn [contains] in HX. by apply orb_false_iff in HX as [_ HX].
  - apply rewr_repl.
    + unfold swap_rules. apply list_elem_of_fmap. by exists (o, n).
    + apply IH. intros o' n' Hin'. specialize (HX o' n' Hin').
      destruct (contains n' X) eqn:E; [|done].
      by rewrite (contains_app_r n' o X E) in HX.
Qed.

Lemma no_logger_call_spec s :
  no_logger_call s = true ↔ ∀ o n, (o, n) ∈ replacements → contains n s = false.
Proof.
  unfold no_logger_call. rewrite forallb_forall. split.
  - intros H o n Hin. apply list_elem_of_In in Hin. specialize (H _ Hin).
    cbn [snd] in H. by destruct (contains n s).
  - intros H [o n] Hin. apply list_elem_of_In in Hin. cbn [snd].
    by rewrite (H o n Hin).
Qed.

(** X14. The call-site substitution loses nothing of a text that has no
    call opener on the logger instance of its own: two such texts with the
    same result are the same text. *)
Theorem call_site_substitution_injective (D1 D2 : str) :
  no_logger_call D1 = true → no_logger_call D2 = true →
  call_site_substitution D1 = call_site_substitution D2 → D1 = D2.
Proof.
  intros H1 H2 E.
  assert (∀ D, no_logger_call D = true →
            rewr true (swap_rules replacements) (call_site_substitution D) D)
    as Hrev.
  { intros D HD. apply rewr_strict_reverse.
    - vm_compute. reflexivity.
    - by apply no_logger_call_spec.
    - apply call_site_rewr. }
  apply (rewr_strict_functional (swap_rules replacements)
           (call_site_substitution D1)).
  - vm_compute. reflexivity.
  - by apply Hrev.
  - rewrite E. by apply Hrev.
Qed.

(** ** The batch and the file system *)

Lemma update_file_files p c w :
  files (update_file p c w) =
  match files w !! p with
  | Some d => <[p := transform c d]> (files w)
  | None => files w
  end.
Proof. unfold update_file. by destruct (files w !! p). Qed.

Lemma update_file_lookup_ne p c q w :
  p ≠ q → files (update_file p c w) !! q = files w !! q.
Proof.
  intros Hne. rewrite update_file_files.
  destruct (files w !! p); [|done]. by rewrite lookup_insert_ne.
Qed.

Lemma update_file_lookup p c w d :
  files w !! p = Some d →
  files (update_file p c w) !! p = Some (transform c d).
Proof.
  intros H. rewrite update_file_files, H. by rewrite lookup_insert_eq.
Qed.

Lemma update_file_is_Some p c q w :
  is_Some (files (update_file p c w) !! q) ↔ is_Some (files w !! q).
Proof.
  destruct (decide (p = q)) as [->|Hne].
  - rewrite update_file_files. destruct (files w !! q) eqn:E.
    + rewrite lookup_insert_eq. split; eauto.
    + by rewrite E.
  - by rewrite update_file_lookup_ne.
Qed.

Lemma run_entries_cons p c config w :
  run_entries ((p, c) :: config) w = run_entries config (update_file p c w).
Proof. done. Qed.

Lemma run_entries_app config1 config2 w :
  run_entries (config1 ++ config2) w =
  run_entries config2 (run_entries config1 w).
Proof. apply fold_left_app. Qed.

Lemma run_entries_lookup_ne config q w :
  q ∉ config.*1 → files (run_entries config w) !! q = files w !! q.
Proof.
  revert w. induction config as [|[p c] config IH]; intros w Hq; [done|].
  rewrite run_entries_cons. cbn [fmap list_fmap fst] in Hq.
  apply not_elem_of_cons in Hq as [Hne Hq].
  rewrite IH; [|done]. by apply update_file_lookup_ne.
Qed.

Lemma run_entries_is_Some config q w :
  is_Some (files (run_entries config w) !! q) ↔ is_Some (files w !! q).
Proof.
  revert w. induction config as [|[p c] config IH]; intros w; [done|].
  rewrite run_entries_cons, IH. apply update_file_is_Some.
Qed.

Lemma run_entries_lookup config p c d w :
  NoDup config.*1 → (p, c) ∈ config → files w !! p = Some d →
  files (run_entries config w) !! p = Some (transform c d).
Proof.
  revert w. induction config as [|[q c'] config IH]; intros w Hnd Hin Hd.
  - by apply elem_of_nil in Hin.
  - cbn [fmap list_fmap fst] in Hnd. apply NoDup_cons in Hnd as [Hq Hnd].
    rewrite run_entries_cons. apply elem_of_cons in Hin as [E|Hin].
    + injection E as <- <-. rewrite run_entries_lookup_ne; [|done].
      by apply update_file_lookup.
    + apply IH; [done|done|]. rewrite update_file_lookup_ne; [done|].
      intros ->. apply Hq. apply list_elem_of_fmap. by exists (p, c).
Qed.

(** The files [main] leaves are those its loop leaves, and its trace is the
    header, the trace of the loop and the banner. *)
Lemma main_with_files config w :
  files (main_with config w) = files (run_entries config (World (files w) [])).
Proof.
  unfold main_with. rewrite !print_all_frame. cbn [files].
  destruct w as [fs t]. cbn [files trace].
  by rewrite (run_entries_frame config fs (t ++ map Print header)).
Qed.

Lemma main_with_trace config w :
  trace (main_with config w) =
  trace w ++ map Print header ++
  trace (run_entries config (World (files w) [])) ++ map Print banner.
Proof.
  unfold main_with. rewrite !print_all_frame. cbn [files trace].
  destruct w as [fs t]. cbn [files trace].
  rewrite (run_entries_frame config fs (t ++ map Print header)).
  cbn [trace]. by rewrite <- !app_assoc.
Qed.

(** X15. After a run over a table without repeated paths, every file of the
    table that existed holds the transform of what it held before, for the
    component name of its entry. *)
Theorem main_transforms_each_file
    (config : list (str * str)) (w : world) (p c d : str) :
  NoDup config.*1 → (p, c) ∈ config → files w !! p = Some d →
  files (main_with config w) !! p = Some (transform c d).
Proof.
  intros Hnd Hin Hd. rewrite main_with_files.
  by apply run_entries_lookup.
Qed.

(** X16. A run changes no file whose path is not in the table. *)
Theorem main_leaves_other_files
    (config : list (str * str)) (w : world) (p : str) :
  p ∉ config.*1 → files (main_with config w) !! p = files w !! p.
Proof.
  intros Hp. rewrite main_with_files. by rewrite run_entries_lookup_ne.
Qed.

(** X17. A run creates no file and removes none: the paths that exist
    afterwards are those that existed before. *)
Theorem main_keeps_the_file_set (config : list (str * str)) (w : world) :
  dom (files (main_with config w)) = dom (files w).
Proof.
  apply set_eq. intros p. rewrite !elem_of_dom, main_with_files.
  exact (run_entries_is_Some config p (World (files w) [])).
Qed.

Lemma run_entries_fixed config w :
  (∀ p d c, p ∈ config.*1 → files w !! p = Some d → transform c d = d) →
  files (run_entries config w) = files w.
Proof.
  revert w. induction config as [|[q c] config IH]; intros w H; [done|].
  rewrite run_entries_cons.
  assert (files (update_file q c w) = files w) as E.
  { rewrite update_file_files. destruct (files w !! q) as [d|] eqn:Ed; [|done].
    rewrite (H q d c); [by apply insert_id| |done].
    cbn [fmap list_fmap fst]. apply list_elem_of_here. }
  rewrite IH, E; [done|]. intros p d c' Hp. rewrite E. intros Hd.
  apply (H p); [|done]. cbn [fmap list_fmap fst]. by apply list_elem_of_further.
Qed.

Lemma run_entries_settles config w p d c :
  p ∈ config.*1 → files (run_entries config w) !! p = Some d →
  transform c d = d.
Proof.
  revert p d. induction config as [|[q c'] config IH] using rev_ind;
    intros p d Hp Hd.
  - by apply elem_of_nil in Hp.
  - rewrite run_entries_app in Hd.
    change (run_entries [(q, c')] ?v) with (update_file q c' v) in Hd.
    destruct (decide (q = p)) as [->|Hne].
    + rewrite update_file_files in Hd.
      destruct (files (run_entries config w) !! p) as [d0|] eqn:E0.
      * rewrite lookup_insert_eq in Hd. injection Hd as <-.
        apply transform_leaves.
        -- apply transform_import_marked.
        -- apply transform_logger_settled.
        -- apply transform_no_opener.
      * congruence.
    + rewrite update_file_lookup_ne in Hd; [|done]. apply (IH p); [|done].
      rewrite fmap_app in Hp. apply elem_of_app in Hp as [Hp|Hp]; [done|].
      cbn [fmap list_fmap fst] in Hp. apply list_elem_of_singleton in Hp.
      congruence.
Qed.

(** X18. Running the batch a second time changes no file, whatever the
    table: the files after two runs are the files after one. *)
Theorem main_idempotent_on_files (config : list (str * str)) (w : world) :
  files (main_with config (main_with config w)) = files (main_with config w).
Proof.
  rewrite (main_with_files config (main_with config w)).
  rewrite run_entries_fixed; [done|]. cbn [files]. intros p d c Hp Hd.
  rewrite main_with_files in Hd.
  by apply (run_entries_settles config (World (files w) []) p).
Qed.

(** X19. The files a run leaves do not depend on the order of the entries
    of a table without repeated paths. *)
Theorem main_order_irrelevant
    (config1 config2 : list (str * str)) (w : world) :
  NoDup config1.*1 → config1 ≡ₚ config2 →
  files (main_with config1 w) = files (main_with config2 w).
Proof.
  intros Hnd Hperm.
  assert (NoDup config2.*1) as Hnd2 by by rewrite <- Hperm.
  apply map_eq. intros p. rewrite !main_with_files.
  destruct (decide (p ∈ config1.*1)) as [Hp|Hp].
  - destruct (files w !! p) as [d|] eqn:Ed.
    + apply list_elem_of_fmap in Hp as ([p' c] & -> & Hin). cbn [fst] in *.
      rewrite (run_entries_lookup config1 p' c d); [|done..].
      rewrite (run_entries_lookup config2 p' c d); [done|done| |done].
      by rewrite <- Hperm.
    + by rewrite !run_entries_keeps_missing.
  - rewrite !run_entries_lookup_ne; [done| |done]. by rewrite <- Hperm.
Qed.

Lemma entry_events_ext fs fs' e :
  fs' !! e.1 = fs !! e.1 → entry_events fs' e = entry_events fs e.
Proof.
  intros H. unfold entry_events, update_file. cbn [files]. rewrite H.
  by destruct (fs !! e.1).
Qed.

Lemma run_entries_trace config fs :
  NoDup config.*1 →
  trace (run_entries config (World fs [])) = flat_map (entry_events fs) config.
Proof.
  revert fs. induction config as [|[p c] config IH]; intros fs Hnd; [done|].
  cbn [fmap list_fmap fst] in Hnd. apply NoDup_cons in Hnd as [Hp Hnd].
  rewrite run_entries_cons. cbn [flat_map].
  destruct (update_file p c (World fs [])) as [fs' t'] eqn:EU.
  rewrite run_entries_frame. cbn [trace]. rewrite (IH fs' Hnd).
  unfold entry_events at 2. cbn [fst snd]. rewrite EU. cbn [trace]. f_equal.
  assert (∀ q, q ≠ p → fs' !! q = fs !! q) as Hfs.
  { intros q Hq. change fs' with (files (World fs' t')). rewrite <- EU.
    by rewrite update_file_lookup_ne. }
  clear IH EU Hnd. induction config as [|e config IH]; [done|].
  cbn [flat_map]. cbn [fmap list_fmap] in Hp.
  apply not_elem_of_cons in Hp as [Hne Hp]. rewrite (IH Hp). f_equal.
  apply entry_events_ext, Hfs. congruence.
Qed.

(** X20. The entries of a table without repeated paths do not influence
    each other: what a run prints, reads and writes is the header, then for
    each entry in turn what [update_file] does for it on the files as they
    were at the start, then the banner. *)
Theorem main_trace_independent (config : list (str * str)) (w : world) :
  NoDup config.*1 →
  trace (main_with config w) =
  trace w ++ map Print header ++
  flat_map (entry_events (files w)) config ++ map Print banner.
Proof.
  intros Hnd. by rewrite main_with_trace, run_entries_trace.
Qed.

Lemma run_entries_missing config w :
  (∀ p, p ∈ config.*1 → files w !! p = None) →
  run_entries config w =
  World (files w) (trace w ++ map Print (map skip_notice config.*1)).
Proof.
  revert w. induction config as [|[q c] config IH]; intros [fs t] H.
  - cbn. by rewrite app_nil_r.
  - rewrite run_entries_cons, update_file_missing.
    2:{ apply H. cbn [fmap list_fmap fst]. apply list_elem_of_here. }
    cbn [files trace] in *. rewrite IH.
    + cbn [files trace fmap list_fmap map fst]. by rewrite <- app_assoc.
    + intros p Hp. cbn [files]. apply H. cbn [fmap list_fmap fst].
      by apply list_elem_of_further.
Qed.

(** X21. A run in a directory that has none of the files of the table
    changes nothing and reads nothing: it prints the header, one notice for
    each entry in turn, and the banner that reports the integration as
    complete. *)
Theorem main_finds_nothing (config : list (str * str)) (w : world) :
  (∀ p, p ∈ config.*1 → files w !! p = None) →
  main_with config w =
  World (files w)
    (trace w ++
     map Print (header ++ map skip_notice config.*1 ++ banner)).
Proof.
  intros H. unfold main_with.
  rewrite (print_all_frame header), run_entries_missing, print_all_frame.
  - cbn [files trace]. by rewrite !map_app, <- !app_assoc.
  - done.
Qed.

Lemma update_file_reads p c fs q :
  Read q ∈ trace (update_file p c (World fs [])) ↔ q = p ∧ is_Some (fs !! p).
Proof.
  unfold update_file, emit, write_file. cbn [files trace].
  destruct (fs !! p) as [d|]; cbn [files trace app].
  - rewrite !elem_of_cons, elem_of_nil. split.
    + intros [?|[[= ->]|[?|[?|[]]]]]; by eauto.
    + intros [-> _]. eauto.
  - rewrite elem_of_cons, elem_of_nil. split; [by intros [?|[]]|].
    by intros [_ [? ?]].
Qed.

Lemma update_file_writes p c fs q :
  (∃ d, Write q d ∈ trace (update_file p c (World fs []))) ↔
  q = p ∧ is_Some (fs !! p).
Proof.
  unfold update_file, emit, write_file. cbn [files trace].
  destruct (fs !! p) as [d|]; cbn [files trace app].
  - split.
    + intros [d' H]. rewrite !elem_of_cons, elem_of_nil in H.
      destruct H as [?|[?|[[= -> _]|[?|[]]]]]; by eauto.
    + intros [-> _]. exists (transform c d). rewrite !elem_of_cons. eauto.
  - split; [|by intros [_ [? ?]]].
    intros [d' H]. rewrite elem_of_cons, elem_of_nil in H. by destruct H.
Qed.

Lemma run_entries_reads config fs q :
  Read q ∈ trace (run_entries config (World fs [])) ↔
  q ∈ config.*1 ∧ is_Some (fs !! q).
Proof.
  revert fs. induction config as [|[p c] config IH]; intros fs.
  - cbn. rewrite !elem_of_nil. tauto.
  - rewrite run_entries_cons.
    pose proof (update_file_is_Some p c q (World fs [])) as HS.
    pose proof (update_file_reads p c fs q) as HR.
    destruct (update_file p c (World fs [])) as [fs' t'].
    rewrite run_entries_frame. cbn [files trace fmap list_fmap fst] in *.
    rewrite elem_of_app, IH, HR, HS, elem_of_cons. split.
    + intros [[-> ?]|[? ?]]; eauto.
    + intros [[->|?] ?]; eauto.
Qed.

Lemma run_entries_writes config fs q :
  (∃ d, Write q d ∈ trace (run_entries config (World fs []))) ↔
  q ∈ config.*1 ∧ is_Some (fs !! q).
Proof.
  revert fs. induction config as [|[p c] config IH]; intros fs.
  - cbn. split; [intros [d H]; by apply elem_of_nil in H|].
    intros [H _]. by apply elem_of_nil in H.
  - rewrite run_entries_cons.
    pose proof (update_file_is_Some p c q (World fs [])) as HS.
    pose proof (update_file_writes p c fs q) as HR.
    destruct (update_file p c (World fs [])) as [fs' t'].
    rewrite run_entries_frame. cbn [files trace fmap list_fmap fst] in *.
    split.
    + intros [d H]. apply elem_of_app in H as [H|H].
      * destruct (proj1 HR (ex_intro _ d H)) as [-> ?].
        split; [apply list_elem_of_here|done].
      * destruct (proj1 (IH fs') (ex_intro _ d H)) as [? ?].
        split; [by apply list_elem_of_further|by apply HS].
    + intros [Hq Hs]. apply elem_of_cons in Hq as [->|Hq].
      * destruct (proj2 HR (conj eq_refl Hs)) as [d H]. exists d.
        apply elem_of_app. by left.
      * destruct (proj2 (IH fs') (conj Hq (proj2 HS Hs))) as [d H]. exists d.
        apply elem_of_app. by right.
Qed.

(** X22. A run reads and writes the files of the table that existed at its
    start, and no other path: a path is read in the course of the run
    exactly when it is in the table and a file, and the same holds of the
    paths that are written. *)
Theorem main_reads_and_writes
    (config : list (str * str)) (w : world) (q : str) :
  (Read q ∈ trace (main_with config w) ↔
   Read q ∈ trace w ∨ q ∈ config.*1 ∧ is_Some (files w !! q)) ∧
  ((∃ d, Write q d ∈ trace (main_with config w)) ↔
   (∃ d, Write q d ∈ trace w) ∨ q ∈ config.*1 ∧ is_Some (files w !! q)).
Proof.
  rewrite main_with_trace.
  assert (∀ e lines, (∀ l, e ≠ Print l) → e ∈ map Print lines → False) as HP.
  { intros e lines He H. apply list_elem_of_fmap in H as (l & -> & _).
    by apply (He l). }
  split.
  - rewrite <- run_entries_reads, !elem_of_app. split.
    + intros [?|[H|[?|H]]]; eauto; by apply HP in H.
    + intros [?|?]; eauto.
  - rewrite <- run_entries_writes. split.
    + intros [d H]. rewrite !elem_of_app in H.
      destruct H as [?|[H|[?|H]]]; eauto; by apply HP in H.
    + intros [[d H]|[d H]]; exists d; rewrite !elem_of_app; eauto.
Qed.

(** * The further properties at concrete inputs *)

(** The paths of the table of the script are all different. *)
Lemma files_config_NoDup : NoDup files_config.*1.
Proof. apply (bool_decide_unpack _). vm_compute. reflexivity. Qed.

Lemma dangling_logger_reference_witness :
  ¬ has_ctor doc_no_import ∧
  contains LOGGER_MARK doc_no_import = false ∧
  contains (lit "console.log(") doc_no_import = true ∧
  contains (lit "this.debug.log(") (transform Widget doc_no_import) = true ∧
  contains LOGGER_MARK (transform Widget doc_no_import) = false.
Proof.
  assert (¬ has_ctor doc_no_import) as H1
    by (apply ctor_search_None; vm_compute; reflexivity).
  assert (contains LOGGER_MARK doc_no_import = false) as H2
    by (vm_compute; reflexivity).
  assert ((lit "console.log(", lit "this.debug.log(") ∈ replacements) as H3
    by apply list_elem_of_here.
  assert (contains (lit "console.log(") doc_no_import = true) as H4
    by (vm_compute; reflexivity).
  split; [exact H1|]. split; [exact H2|]. split; [exact H4|].
  exact (dangling_logger_reference Widget doc_no_import _ _ H1 H2 H3 H4).
Defined.

Lemma semicolon_free_document_witness :
  absent semicolon doc_semicolon_free = true ∧
  import_findall doc_semicolon_free = [] ∧
  ctor_search doc_semicolon_free = None ∧
  transform Widget doc_semicolon_free =
    IMPORT_LINE ++ NL :: lit "import a from 'a'" ++
    NL :: lit "class B extends A { constructor() { super() } m() { this.debug.log(1) } }".
Proof.
  assert (absent semicolon doc_semicolon_free = true) as H1
    by (vm_compute; reflexivity).
  split; [exact H1|].
  destruct (semicolon_free_document Widget doc_semicolon_free H1)
    as (Ha & Hb & H).
  split; [exact Ha|]. split; [exact Hb|]. rewrite H. vm_compute. reflexivity.
Defined.

Lemma import_line_placement_witness :
  import_finditer doc_import_twice =
    [(0, lit "import a;"); (10, lit "import b;")] ++ [(20, lit "import a;")] ∧
  contains IMPORT_MARK doc_import_twice = false ∧
  ∃ j, find (lit "import a;") doc_import_twice = Some j ∧ j ≤ 20 ∧
       insert_import doc_import_twice =
         take j doc_import_twice ++ lit "import a;" ++ NL :: IMPORT_LINE ++
         drop (j + length (lit "import a;")) doc_import_twice ∧
       (count_sub (lit "import a;") doc_import_twice = 1 → j = 20).
Proof.
  assert (import_finditer doc_import_twice =
          [(0, lit "import a;"); (10, lit "import b;")] ++
          [(20, lit "import a;")]) as H1 by (vm_compute; reflexivity).
  assert (contains IMPORT_MARK doc_import_twice = false) as H2
    by (vm_compute; reflexivity).
  split; [exact H1|]. split; [exact H2|].
  exact (import_line_placement doc_import_twice _ 20 (lit "import a;") H1 H2).
Defined.

(** Where the text of the last import statement is the text of the first,
    the line goes behind the first statement. *)
Example import_line_behind_first_statement :
  insert_import doc_import_twice =
  lit "import a;" ++ NL :: IMPORT_LINE ++
  NL :: lit "import b;" ++ NL :: lit "import a;".
Proof. vm_compute. reflexivity. Qed.

Lemma anchor_is_leftmost_witness :
  ctor_search doc_two_classes = Some (20, lit "constructor() { super();") ∧
  doc_two_classes =
    lit "class A extends B { constructor() { super(); } } class C extends B { " ++
    lit "constructor() { super();" ++ lit " } }" ∧
  ctor_prolog (lit "constructor() { super();") ∧
  20 ≤ length (lit "class A extends B { constructor() { super(); } } class C extends B { ").
Proof.
  assert (ctor_search doc_two_classes =
          Some (20, lit "constructor() { super();")) as H1
    by (vm_compute; reflexivity).
  assert (doc_two_classes =
    lit "class A extends B { constructor() { super(); } } class C extends B { " ++
    lit "constructor() { super();" ++ lit " } }") as H2
    by (vm_compute; reflexivity).
  assert (ctor_prolog (lit "constructor() { super();")) as H3.
  { exists [], (lit " "), (lit " "). repeat split; reflexivity. }
  split; [exact H1|]. split; [exact H2|]. split; [exact H3|].
  exact (anchor_is_leftmost doc_two_classes 20 _ _ _ _ H1 H2 H3).
Defined.

(** Of two constructors only the first is given a logger line. *)
Example second_constructor_untouched :
  insert_logger Widget doc_two_classes =
  lit "class A extends B { constructor() { super();" ++
  logger_line Widget ++
  lit " } } class C extends B { constructor() { super(); } }".
Proof. vm_compute. reflexivity. Qed.

Lemma configured_names_reach_the_file_witness :
  (lit "src/WebDHT.js", lit "WebDHT") ∈ files_config ∧
  has_ctor doc_widget ∧ contains LOGGER_MARK doc_widget = false ∧
  count_sub LOGGER_MARK (transform (lit "WebDHT") doc_widget) = 1.
Proof.
  assert ((lit "src/WebDHT.js", lit "WebDHT") ∈ files_config) as H1
    by (apply (bool_decide_unpack _); vm_compute; reflexivity).
  assert (has_ctor doc_widget) as H2
    by (apply has_ctor_iff; vm_compute; reflexivity).
  assert (contains LOGGER_MARK doc_widget = false) as H3
    by (vm_compute; reflexivity).
  split; [exact H1|]. split; [exact H2|]. split; [exact H3|].
  destruct (configured_names_reach_the_file _ _ doc_widget H1 H2 H3)
    as (i & h & _ & _ & H).
  exact H.
Defined.

Lemma call_site_substitution_by_parts_witness :
  forallb (λ pr, absent NL pr.1) replacements = true ∧
  call_site_substitution (lit "console.log(1)" ++ NL :: lit "console.warn(2)") =
  lit "this.debug.log(1)" ++ NL :: lit "this.debug.warn(2)".
Proof.
  assert (forallb (λ pr, absent NL pr.1) replacements = true) as H1
    by (vm_compute; reflexivity).
  split; [exact H1|].
  rewrite (call_site_substitution_by_parts NL (lit "console.log(1)")
             (lit "console.warn(2)") H1).
  vm_compute. reflexivity.
Defined.

Lemma rule_order_irrelevant_witness :
  rev replacements ≡ₚ replacements ∧
  fold_left (λ c pr, re_sub pr.1 pr.2 c) (rev replacements) doc_five_calls =
  call_site_substitution doc_five_calls.
Proof.
  assert (rev replacements ≡ₚ replacements) as H1
    by (symmetry; apply Permutation_rev).
  split; [exact H1|].
  exact (rule_order_irrelevant (rev replacements) doc_five_calls H1).
Defined.

Lemma call_site_substitution_injective_witness :
  no_logger_call doc_no_import = true ∧
  call_site_substitution doc_no_import = call_site_substitution doc_no_import ∧
  doc_no_import = doc_no_import.
Proof.
  assert (no_logger_call doc_no_import = true) as H1
    by (vm_compute; reflexivity).
  split; [exact H1|]. split; [reflexivity|].
  exact (call_site_substitution_injective doc_no_import doc_no_import
           H1 H1 eq_refl).
Defined.

(** A text that calls the logger instance already and a text that calls
    [console] can have the same result. *)
Example call_site_substitution_merges :
  no_logger_call (lit "this.debug.log(1)") = false ∧
  call_site_substitution (lit "console.log(1)") =
  call_site_substitution (lit "this.debug.log(1)").
Proof. split; vm_compute; reflexivity. Qed.

Lemma main_transforms_each_file_witness :
  NoDup files_config.*1 ∧
  (lit "src/WebDHT.js", lit "WebDHT") ∈ files_config ∧
  files world_repo !! lit "src/WebDHT.js" = Some doc_widget ∧
  files (main world_repo) !! lit "src/WebDHT.js" =
    Some (transform (lit "WebDHT") doc_widget).
Proof.
  assert ((lit "src/WebDHT.js", lit "WebDHT") ∈ files_config) as H2
    by (apply (bool_decide_unpack _); vm_compute; reflexivity).
  assert (files world_repo !! lit "src/WebDHT.js" = Some doc_widget) as H3
    by (vm_compute; reflexivity).
  split; [exact files_config_NoDup|]. split; [exact H2|]. split; [exact H3|].
  exact (main_transforms_each_file files_config world_repo _ _ _
           files_config_NoDup H2 H3).
Defined.

Lemma main_leaves_other_files_witness :
  (lit "README.md" ∉ files_config.*1) ∧
  files (main world_repo) !! lit "README.md" = Some (lit "console.log(1)").
Proof.
  assert (lit "README.md" ∉ files_config.*1) as H1
    by (apply (bool_decide_unpack _); vm_compute; reflexivity).
  split; [exact H1|]. unfold main.
  rewrite (main_leaves_other_files files_config world_repo _ H1).
  vm_compute. reflexivity.
Defined.

Lemma main_order_irrelevant_witness :
  NoDup config_ab.*1 ∧ config_ab ≡ₚ config_ba ∧
  files (main_with config_ab world_repo) =
  files (main_with config_ba world_repo).
Proof.
  assert (NoDup config_ab.*1) as H1
    by (apply (bool_decide_unpack _); vm_compute; reflexivity).
  assert (config_ab ≡ₚ config_ba) as H2 by apply perm_swap.
  split; [exact H1|]. split; [exact H2|].
  exact (main_order_irrelevant config_ab config_ba world_repo H1 H2).
Defined.

Lemma main_trace_independent_witness :
  NoDup files_config.*1 ∧
  trace (main world_repo) =
  map Print header ++
  flat_map (entry_events (files world_repo)) files_config ++
  map Print banner.
Proof.
  split; [exact files_config_NoDup|].
  exact (main_trace_independent files_config world_repo files_config_NoDup).
Defined.

Lemma main_finds_nothing_witness :
  (∀ p, p ∈ files_config.*1 → (∅ : gmap str str) !! p = None) ∧
  main (World ∅ []) =
  World ∅ (map Print (header ++ map skip_notice files_config.*1 ++ banner)).
Proof.
  assert (∀ p, p ∈ files_config.*1 → (∅ : gmap str str) !! p = None) as H1
    by (intros p _; apply lookup_empty).
  split; [exact H1|].
  exact (main_finds_nothing files_config (World ∅ []) H1).
Defined.
